(** * Print-job spooler (spool.c): scheduling and metrics engine

    A shallow embedding of [spool.c] and the properties of its job
    repository ([addJob]), its ordering policies ([runFCFS], [runSJF],
    [runPriority] with the comparators [compareSJF], [comparePriority])
    and its timeline simulator ([calculateMetrics]).

    Conventions of the embedding:
    - a C [int] is a [Z] kept in the 32-bit two's complement range, every
      [int] addition and subtraction of the source goes through [wrap];
    - a C [double] is a binary64 value of [SpecFloat] (53-bit mantissa),
      with the library's round-to-nearest-even operations;
    - the global array [job_queue] is a list of [MAX_JOBS] cells, read with
      [!!] and written with [<[ _ := _ ]>];
    - the globals [job_queue], [job_count], [next_job_id] form the record
      [repo], which every operation receives and returns;
    - what an operation prints is returned as a value ([add_result],
      [sim_result]);
    - [qsort] belongs to the C library, not to the program: the embedding is
      parameterised by an implementation that meets the contract of the C
      standard ([Qsort]). *)

From Stdlib Require Import ZArith Lia Bool.
From Stdlib Require Import Floats.SpecFloat.
From stdpp Require Import base tactics option list sorting.

Local Open Scope Z_scope.

(** ** Machine integers *)

Module Int.

Definition INT_MAX : Z := 2147483647.
Definition INT_MIN : Z := -2147483648.

(** Reduction of an integer into the range of a 32-bit [int]. *)
Definition wrap (z : Z) : Z := (z + 2 ^ 31) mod 2 ^ 32 - 2 ^ 31.

Definition in_range (z : Z) : Prop := INT_MIN <= z <= INT_MAX.

Definition add (a b : Z) : Z := wrap (a + b).
Definition sub (a b : Z) : Z := wrap (a - b).

End Int.

(** ** Doubles *)

Module Double.

Definition prec : Z := 53.
Definition emax : Z := 1024.

Definition double : Type := spec_float.

(** Conversion of an [int] to [double]. *)
Definition of_int (z : Z) : double := binary_normalize prec emax z 0 false.

Definition add (x y : double) : double := SFadd prec emax x y.
Definition div (x y : double) : double := SFdiv prec emax x y.

End Double.

(** ** Data model *)

Definition MAX_JOBS : Z := 100.

Record PrintJob : Type := mkJob {
  job_id : Z;
  page_count : Z;
  priority : Z
}.

(** The three globals of the program. *)
Record repo : Type := mkRepo {
  job_queue : list PrintJob;
  job_count : Z;
  next_job_id : Z
}.

(** Static storage is zero-initialised. *)
Definition zero_job : PrintJob := mkJob 0 0 0.

Definition initial_repo : repo :=
  mkRepo (replicate (Z.to_nat MAX_JOBS) zero_job) 0 1.

(** The jobs submitted so far, [job_queue[0 .. job_count-1]]. *)
Definition pending (st : repo) : list PrintJob :=
  take (Z.to_nat (job_count st)) (job_queue st).

(** ** Comparators *)

Definition compareSJF (jobA jobB : PrintJob) : Z :=
  Int.sub (page_count jobA) (page_count jobB).

Definition comparePriority (jobA jobB : PrintJob) : Z :=
  if negb (priority jobA =? priority jobB)
  then Int.sub (priority jobA) (priority jobB)
  else Int.sub (job_id jobA) (job_id jobB).

(** ** The job repository: addJob *)

Inductive add_result : Type :=
  | QueueFull                (* "Error: Print queue is full." *)
  | NotPositive              (* "Error: Page count and priority must be positive." *)
  | Added (newJob : PrintJob). (* "Success: Added Job ..." *)

(** [scanned_pages] and [scanned_priority] are the two values that the
    [scanf] calls store into [newJob]. *)
Definition addJob (scanned_pages scanned_priority : Z) (st : repo)
  : add_result * repo :=
  if job_count st >=? MAX_JOBS then (QueueFull, st)
  else
    let new_id := next_job_id st in
    let st := mkRepo (job_queue st) (job_count st)
                     (Int.add (next_job_id st) 1) in        (* next_job_id++ *)
    let newJob := mkJob new_id scanned_pages scanned_priority in
    if (page_count newJob <=? 0) || (priority newJob <=? 0) then
      (NotPositive,
       mkRepo (job_queue st) (job_count st)
              (Int.sub (next_job_id st) 1))                 (* next_job_id-- *)
    else
      (Added newJob,
       mkRepo (<[Z.to_nat (job_count st) := newJob]> (job_queue st))
              (Int.add (job_count st) 1)
              (next_job_id st)).

(** ** The timeline simulator: calculateMetrics *)

(** One printed line of the result table. *)
Record row : Type := mkRow {
  row_job : PrintJob;
  wait_time : Z;
  turnaround_time : Z
}.

(** The locals that the loop of [calculateMetrics] carries, with the lines
    printed so far. *)
Record metrics : Type := mkMetrics {
  total_wait_time : Double.double;
  total_turnaround_time : Double.double;
  current_time : Z;
  printed : list row
}.

Definition metrics_start : metrics :=
  mkMetrics (Double.of_int 0) (Double.of_int 0) 0 [].

(** The loop body, for [job = queue[i]]. *)
Definition metrics_step (m : metrics) (job : PrintJob) : metrics :=
  let wait := current_time m in
  let turnaround := Int.add wait (page_count job) in
  mkMetrics
    (Double.add (total_wait_time m) (Double.of_int wait))
    (Double.add (total_turnaround_time m) (Double.of_int turnaround))
    (Int.add (current_time m) (page_count job))
    (printed m ++ [mkRow job wait turnaround]).

(** [for (i = 0; i < count; i++)] over [queue]. *)
Definition metrics_loop (queue : list PrintJob) (count : Z) : metrics :=
  fold_left metrics_step (take (Z.to_nat count) queue) metrics_start.

Record report : Type := mkReport {
  rows : list row;
  avg_wait_time : Double.double;
  avg_turnaround_time : Double.double
}.

Definition calculateMetrics (queue : list PrintJob) (count : Z) : report :=
  let m := metrics_loop queue count in
  mkReport (printed m)
           (Double.div (total_wait_time m) (Double.of_int count))
           (Double.div (total_turnaround_time m) (Double.of_int count)).

(** ** The C library's qsort *)

(** A comparator is consistent on the elements of [l] when it is a total
    preorder there, as the C standard requires of the function given to
    [qsort]. *)
Definition consistent_on (l : list PrintJob)
    (compar : PrintJob -> PrintJob -> Z) : Prop :=
  (forall a b, a ∈ l -> b ∈ l -> Z.sgn (compar a b) = - Z.sgn (compar b a)) /\
  (forall a b c, a ∈ l -> b ∈ l -> c ∈ l ->
     compar a b <= 0 -> compar b c <= 0 -> compar a c <= 0).

(** What the C standard promises of [qsort]: the array is rearranged, and
    with a consistent comparator it ends in ascending order.  The order of
    elements that compare equal is left open. *)
Class Qsort : Type := {
  qsort : list PrintJob -> (PrintJob -> PrintJob -> Z) -> list PrintJob;
  qsort_permutes : forall base compar, qsort base compar ≡ₚ base;
  qsort_ascending : forall base compar,
    consistent_on base compar ->
    StronglySorted (fun a b => compar a b <= 0) (qsort base compar)
}.

(** ** The three simulations *)

Inductive sim_result : Type :=
  | EmptyQueue                 (* "Cannot run simulation: The print queue is empty." *)
  | Simulated (r : report).

(** [memcpy(temp_queue, job_queue, job_count * sizeof(PrintJob))]: the
    initialised part of the local array. *)
Definition memcpy_jobs (src : list PrintJob) (n : Z) : list PrintJob :=
  take (Z.to_nat n) src.

Definition runFCFS (st : repo) : sim_result * repo :=
  if job_count st =? 0 then (EmptyQueue, st)
  else (Simulated (calculateMetrics (job_queue st) (job_count st)), st).

Section Simulations.
Context `{Q : Qsort}.

(** [temp_queue] as [runSJF] hands it to [calculateMetrics]. *)
Definition sjf_order (st : repo) : list PrintJob :=
  let temp_queue := memcpy_jobs (job_queue st) (job_count st) in
  qsort temp_queue compareSJF.

Definition runSJF (st : repo) : sim_result * repo :=
  if job_count st =? 0 then (EmptyQueue, st)
  else (Simulated (calculateMetrics (sjf_order st) (job_count st)), st).

(** [temp_queue] as [runPriority] hands it to [calculateMetrics]. *)
Definition priority_order (st : repo) : list PrintJob :=
  let temp_queue := memcpy_jobs (job_queue st) (job_count st) in
  qsort temp_queue comparePriority.

Definition runPriority (st : repo) : sim_result * repo :=
  if job_count st =? 0 then (EmptyQueue, st)
  else (Simulated (calculateMetrics (priority_order st) (job_count st)), st).

End Simulations.

(** ** The menu loop of main *)

Inductive command : Type :=
  | CmdAdd (scanned_pages scanned_priority : Z)   (* choice 1 *)
  | CmdFCFS                                       (* choice 3 *)
  | CmdSJF                                        (* choice 4 *)
  | CmdPriority.                                  (* choice 5 *)

Inductive output : Type :=
  | OutAdd (r : add_result)
  | OutSim (r : sim_result).

Section Main.
Context `{Q : Qsort}.

Definition dispatch (c : command) (st : repo) : output * repo :=
  match c with
  | CmdAdd p pr => let '(r, st') := addJob p pr st in (OutAdd r, st')
  | CmdFCFS => let '(r, st') := runFCFS st in (OutSim r, st')
  | CmdSJF => let '(r, st') := runSJF st in (OutSim r, st')
  | CmdPriority => let '(r, st') := runPriority st in (OutSim r, st')
  end.

Fixpoint session (cs : list command) (st : repo) : list output * repo :=
  match cs with
  | [] => ([], st)
  | c :: cs' =>
      let '(o, st') := dispatch c st in
      let '(os, st'') := session cs' st' in
      (o :: os, st'')
  end.

End Main.

(** The values typed at the prompts fit an [int]. *)
Definition int_inputs (c : command) : Prop :=
  match c with
  | CmdAdd p pr => Int.in_range p /\ Int.in_range pr
  | _ => True
  end.

(** ** Two sorting procedures that meet the qsort contract

    Both are insertion sorts.  [place] walks the sorted part from its left
    end; the test [before] decides, from the comparator's answer, whether
    the new element stops in front of the one it meets.  Stopping at an
    element that compares equal keeps equal elements in their original
    order; walking past it reverses them.  The C standard allows both. *)

Section InsertionSort.
Variable before : Z -> bool.
Variable compar : PrintJob -> PrintJob -> Z.

Fixpoint place (x : PrintJob) (sorted : list PrintJob) : list PrintJob :=
  match sorted with
  | [] => [x]
  | y :: rest =>
      if before (compar x y) then x :: y :: rest
      else y :: place x rest
  end.

Fixpoint insertion_sort (base : list PrintJob) : list PrintJob :=
  match base with
  | [] => []
  | x :: rest => place x (insertion_sort rest)
  end.

End InsertionSort.

Definition stops_at_equal (c : Z) : bool := c <=? 0.
Definition passes_equal (c : Z) : bool := c <? 0.

Definition qsort_keeping_ties (base : list PrintJob)
    (compar : PrintJob -> PrintJob -> Z) : list PrintJob :=
  insertion_sort stops_at_equal compar base.

Definition qsort_reversing_ties (base : list PrintJob)
    (compar : PrintJob -> PrintJob -> Z) : list PrintJob :=
  insertion_sort passes_equal compar base.

(** ** Vocabulary of the properties *)

(** The jobs of a report, in the order of its lines. *)
Definition served (r : report) : list PrintJob := row_job <$> rows r.

(** Timing of a result table: the first line waits 0, each later line waits
    what its predecessor waited plus the predecessor's size, and every
    turnaround is wait plus size. *)
Definition timeline (rs : list row) : Prop :=
  (forall r, rs !! 0%nat = Some r -> wait_time r = 0) /\
  (forall k r r', rs !! k = Some r -> rs !! S k = Some r' ->
     wait_time r' = wait_time r + page_count (row_job r)) /\
  (forall k r, rs !! k = Some r ->
     turnaround_time r = wait_time r + page_count (row_job r)).

(** The same with the additions of the machine. *)
Definition timeline_int (rs : list row) : Prop :=
  (forall r, rs !! 0%nat = Some r -> wait_time r = 0) /\
  (forall k r r', rs !! k = Some r -> rs !! S k = Some r' ->
     wait_time r' = Int.add (wait_time r) (page_count (row_job r))) /\
  (forall k r, rs !! k = Some r ->
     turnaround_time r = Int.add (wait_time r) (page_count (row_job r))).

Definition total_pages (l : list PrintJob) : Z :=
  foldr (fun j acc => page_count j + acc) 0 l.

Definition sum_Z (l : list Z) : Z := foldr Z.add 0 l.

(** A sequence is ordered by [key] when the keys never decrease. *)
Definition ascending_by (key : PrintJob -> Z) (l : list PrintJob) : Prop :=
  StronglySorted (fun a b => key a <= key b) l.

(** [out] keeps the submission order of [input] among jobs of equal [key]:
    for each key value, the jobs carrying it appear in the same order in
    both. *)
Definition keeps_ties (key : PrintJob -> Z) (input out : list PrintJob) : Prop :=
  forall k, filter (fun j => key j = k) out = filter (fun j => key j = k) input.

(** Among jobs of equal [key], ids ascend. *)
Definition ties_by_id (key : PrintJob -> Z) (out : list PrintJob) : Prop :=
  forall i i' a b, (i < i')%nat -> out !! i = Some a -> out !! i' = Some b ->
    key a = key b -> job_id a < job_id b.

(** A run of submissions: [addJob] once for each pair of scanned values. *)
Fixpoint submit_all (subs : list (Z * Z)) (st : repo)
  : list add_result * repo :=
  match subs with
  | [] => ([], st)
  | (p, pr) :: subs' =>
      let '(r, st') := addJob p pr st in
      let '(rs, st'') := submit_all subs' st' in
      (r :: rs, st'')
  end.

(** Ids handed out by a run of submissions, in the order of acceptance. *)
Fixpoint accepted_ids (rs : list add_result) : list Z :=
  match rs with
  | [] => []
  | Added j :: rs' => job_id j :: accepted_ids rs'
  | _ :: rs' => accepted_ids rs'
  end.

(** The repository invariant. *)
Definition repo_inv (st : repo) : Prop :=
  0 <= job_count st <= MAX_JOBS /\
  next_job_id st = job_count st + 1 /\
  length (job_queue st) = Z.to_nat MAX_JOBS /\
  (forall (i : nat) j, (Z.of_nat i < job_count st) ->
     job_queue st !! i = Some j -> job_id j = Z.of_nat i + 1).

(** Accepted jobs have positive [int] size and priority. *)
Definition accepted_job (j : PrintJob) : Prop :=
  0 < page_count j <= Int.INT_MAX /\ 0 < priority j <= Int.INT_MAX.

Section Reachable.
Context `{Q : Qsort}.

(** States that a session of the menu loop can reach. *)
Inductive reachable : repo -> Prop :=
  | reach_initial : reachable initial_repo
  | reach_dispatch c st :
      reachable st -> int_inputs c -> reachable (dispatch c st).2.

End Reachable.

(** ** The lines of a result table *)

(** The lines that the loop prints for [l] when the clock shows [t]. *)
Fixpoint lines_from (t : Z) (l : list PrintJob) : list row :=
  match l with
  | [] => []
  | job :: rest =>
      mkRow job t (Int.add t (page_count job))
        :: lines_from (Int.add t (page_count job)) rest
  end.

(** ** Doubles that hold integers

    An integer below 2^53 in magnitude has a binary64 representation with a
    53-bit mantissa: its bits, shifted to the left end. *)

(** [shl p n] is [p * 2^n]. *)
Fixpoint shl (p : positive) (n : nat) : positive :=
  match n with
  | O => p
  | S n' => xO (shl p n')
  end.

(** Number of binary digits of [p]. *)
Definition digits (p : positive) : Z := Zpos (digits2_pos p).

(** The binary64 value that holds the integer [z] exactly. *)
Definition normal_form (z : Z) : Double.double :=
  match z with
  | Z0 => S754_zero false
  | Zpos p => S754_finite false (shl p (Z.to_nat (53 - digits p))) (digits p - 53)
  | Zneg p => S754_finite true (shl p (Z.to_nat (53 - digits p))) (digits p - 53)
  end.

Definition finite_form (s : bool) (p : positive) : Double.double :=
  S754_finite s (shl p (Z.to_nat (53 - digits p))) (digits p - 53).

(** ** Sessions used as concrete inputs *)

(** The scenario of the specification: three jobs of sizes 10, 5, 20 and
    priorities 2, 1, 3. *)
Definition scenario_repo : repo :=
  (submit_all [(10, 2); (5, 1); (20, 3)] initial_repo).2.

(** A job of [INT_MAX] pages followed by a job of one page. *)
Definition overflow_repo : repo :=
  (submit_all [(2147483647, 1); (1, 1)] initial_repo).2.

(** Two jobs of the same size. *)
Definition tied_repo : repo :=
  (submit_all [(5, 1); (5, 2)] initial_repo).2.

(** One hundred accepted jobs. *)
Definition full_repo : repo :=
  (submit_all (replicate 100 (1, 1)) initial_repo).2.

(** ** The rest of the program: displayQueue and main *)

Inductive display_result : Type :=
  | NothingQueued                   (* "The print queue is currently empty." *)
  | Listing (jobs : list PrintJob). (* one table line per job *)

(** [for (i = 0; i < job_count; i++)] over [job_queue]. *)
Definition displayQueue (st : repo) : display_result * repo :=
  if job_count st =? 0 then (NothingQueued, st)
  else (Listing (take (Z.to_nat (job_count st)) (job_queue st)), st).

(** What one turn of the menu loop prints after the menu. *)
Inductive screen : Type :=
  | ScreenAdd (r : add_result)
  | ScreenQueue (d : display_result)
  | ScreenSim (r : sim_result)
  | ScreenInvalidChoice             (* "Invalid choice. Please try again." *)
  | ScreenGoodbye.                  (* "Exiting simulation. Goodbye!" *)

(** How a run over a finite input ends: [main] returns 0 after choice 6, or
    the numbers are used up while a [scanf] waits for the next one. *)
Inductive ending : Type :=
  | Returned
  | AwaitingInput.

Definition shown (s : screen) (run : list screen * repo * ending)
  : list screen * repo * ending :=
  let '(out, st, e) := run in (s :: out, st, e).

Section MainLoop.
Context `{Q : Qsort}.

(** The loop of [main] over the numbers that the [scanf("%d")] calls read,
    in the order they are typed.  [addJob] reads its two numbers only after
    its capacity test; when the repository is full it reads none, and the
    numbers that follow are taken as menu choices.  When the input ends the
    repository is returned as it stood at the last menu prompt.  Input that
    is not a number is outside this model. *)
Fixpoint main_loop (input : list Z) (st : repo)
  : list screen * repo * ending :=
  match input with
  | [] => ([], st, AwaitingInput)
  | choice :: rest =>
      if choice =? 1 then
        if job_count st >=? MAX_JOBS then
          let '(r, st') := addJob 0 0 st in
          shown (ScreenAdd r) (main_loop rest st')
        else
          match rest with
          | scanned_pages :: scanned_priority :: rest' =>
              let '(r, st') := addJob scanned_pages scanned_priority st in
              shown (ScreenAdd r) (main_loop rest' st')
          | _ => ([], st, AwaitingInput)
          end
      else if choice =? 2 then
        let '(d, st') := displayQueue st in
        shown (ScreenQueue d) (main_loop rest st')
      else if choice =? 3 then
        let '(r, st') := runFCFS st in
        shown (ScreenSim r) (main_loop rest st')
      else if choice =? 4 then
        let '(r, st') := runSJF st in
        shown (ScreenSim r) (main_loop rest st')
      else if choice =? 5 then
        let '(r, st') := runPriority st in
        shown (ScreenSim r) (main_loop rest st')
      else if choice =? 6 then
        ([ScreenGoodbye], st, Returned)
      else
        shown ScreenInvalidChoice (main_loop rest st)
  end.

(** The program, started with its zero-initialised globals. *)
Definition main (input : list Z) : list screen * repo * ending :=
  main_loop input initial_repo.

End MainLoop.

(** The numbers a user types to issue a command. *)
Definition keystrokes (c : command) : list Z :=
  match c with
  | CmdAdd p pr => [1; p; pr]
  | CmdFCFS => [3]
  | CmdSJF => [4]
  | CmdPriority => [5]
  end.

(** The numbers typed for a whole session. *)
Fixpoint typed (cs : list command) : list Z :=
  match cs with
  | [] => []
  | c :: cs' => keystrokes c ++ typed cs'
  end.

Definition screen_of (o : output) : screen :=
  match o with
  | OutAdd r => ScreenAdd r
  | OutSim r => ScreenSim r
  end.

(** Number of add-job commands in a session. *)
Fixpoint count_adds (cs : list command) : nat :=
  match cs with
  | [] => 0
  | CmdAdd _ _ :: cs' => S (count_adds cs')
  | _ :: cs' => count_adds cs'
  end.

(** ** Vocabulary of the further properties *)

(** Jobs reported as added, in the order of acceptance. *)
Fixpoint accepted_jobs (rs : list add_result) : list PrintJob :=
  match rs with
  | [] => []
  | Added j :: rs' => j :: accepted_jobs rs'
  | _ :: rs' => accepted_jobs rs'
  end.

(** The pairs that pass the validation of [addJob]. *)
Definition positive_pairs (subs : list (Z * Z)) : list (Z * Z) :=
  filter (fun s : Z * Z => 0 < s.1 /\ 0 < s.2) subs.

(** Jobs made of the pairs, numbered upwards from [id]. *)
Fixpoint numbered (id : Z) (subs : list (Z * Z)) : list PrintJob :=
  match subs with
  | [] => []
  | (p, pr) :: rest => mkJob id p pr :: numbered (id + 1) rest
  end.

(** Sum of the waiting times of jobs of the given sizes served in the
    given order: each job delays all the jobs behind it. *)
Fixpoint waiting_sum (sizes : list Z) : Z :=
  match sizes with
  | [] => 0
  | x :: rest => x * Z.of_nat (length rest) + waiting_sum rest
  end.

(** The wait and turnaround columns of a table. *)
Definition times (rs : list row) : list (Z * Z) :=
  (fun r => (wait_time r, turnaround_time r)) <$> rs.

(** * Properties *)

(** ** Machine integers *)

Lemma wrap_in_range z : Int.in_range z -> Int.wrap z = z.
Proof.
  unfold Int.in_range, Int.INT_MIN, Int.INT_MAX, Int.wrap; intros Hz.
  rewrite Z.mod_small; lia.
Qed.

Lemma wrap_range z : Int.in_range (Int.wrap z).
Proof.
  unfold Int.in_range, Int.INT_MIN, Int.INT_MAX, Int.wrap.
  pose proof (Z.mod_pos_bound (z + 2 ^ 31) (2 ^ 32)); lia.
Qed.

Lemma wrap_absorb a b : Int.wrap (Int.wrap a + b) = Int.wrap (a + b).
Proof.
  unfold Int.wrap.
  replace ((a + 2 ^ 31) mod 2 ^ 32 - 2 ^ 31 + b + 2 ^ 31)
    with ((a + 2 ^ 31) mod 2 ^ 32 + b) by lia.
  rewrite Zplus_mod_idemp_l. do 2 f_equal. lia.
Qed.

(** [n++] followed by [n--] restores an [int]. *)
Lemma incr_decr n : Int.in_range n -> Int.sub (Int.add n 1) 1 = n.
Proof.
  intros Hn. unfold Int.sub, Int.add.
  replace (Int.wrap (n + 1) - 1) with (Int.wrap (n + 1) + -1) by lia.
  rewrite wrap_absorb. replace (n + 1 + -1) with n by lia.
  by apply wrap_in_range.
Qed.

Lemma add_exact a b : Int.in_range (a + b) -> Int.add a b = a + b.
Proof. apply wrap_in_range. Qed.

Lemma sub_exact a b : Int.in_range (a - b) -> Int.sub a b = a - b.
Proof. apply wrap_in_range. Qed.

(** ** The repository *)

Lemma initial_inv : repo_inv initial_repo.
Proof.
  unfold repo_inv, initial_repo; cbn [job_queue job_count next_job_id].
  split_and!; [done | done | done | by rewrite length_replicate |].
  intros i j Hi; lia.
Qed.

Lemma addJob_full p pr st :
  MAX_JOBS <= job_count st -> addJob p pr st = (QueueFull, st).
Proof.
  intros H. unfold addJob.
  destruct (job_count st >=? MAX_JOBS) eqn:E; [done | lia].
Qed.

Lemma addJob_not_positive p pr st :
  job_count st < MAX_JOBS -> p <= 0 \/ pr <= 0 ->
  addJob p pr st =
    (NotPositive,
     mkRepo (job_queue st) (job_count st)
            (Int.sub (Int.add (next_job_id st) 1) 1)).
Proof.
  intros H Hp. unfold addJob; simpl.
  destruct (job_count st >=? MAX_JOBS) eqn:E; [lia |].
  destruct ((p <=? 0) || (pr <=? 0)) eqn:E'; [done |].
  apply orb_false_elim in E' as [? ?]; lia.
Qed.

Lemma addJob_accepts p pr st :
  job_count st < MAX_JOBS -> 0 < p -> 0 < pr ->
  addJob p pr st =
    (Added (mkJob (next_job_id st) p pr),
     mkRepo (<[Z.to_nat (job_count st) := mkJob (next_job_id st) p pr]>
               (job_queue st))
            (Int.add (job_count st) 1)
            (Int.add (next_job_id st) 1)).
Proof.
  intros H Hp Hpr. unfold addJob; simpl.
  destruct (job_count st >=? MAX_JOBS) eqn:E; [lia |].
  destruct ((p <=? 0) || (pr <=? 0)) eqn:E'; [| done].
  apply orb_true_elim in E' as [? | ?]; lia.
Qed.

(** The three ways [addJob] can end. *)
Lemma addJob_cases p pr st :
  (MAX_JOBS <= job_count st /\ addJob p pr st = (QueueFull, st)) \/
  (job_count st < MAX_JOBS /\ (p <= 0 \/ pr <= 0) /\
   addJob p pr st =
     (NotPositive,
      mkRepo (job_queue st) (job_count st)
             (Int.sub (Int.add (next_job_id st) 1) 1))) \/
  (job_count st < MAX_JOBS /\ 0 < p /\ 0 < pr /\
   addJob p pr st =
     (Added (mkJob (next_job_id st) p pr),
      mkRepo (<[Z.to_nat (job_count st) := mkJob (next_job_id st) p pr]>
                (job_queue st))
             (Int.add (job_count st) 1)
             (Int.add (next_job_id st) 1))).
Proof.
  destruct (Z_le_gt_dec MAX_JOBS (job_count st)) as [Hf | Hf].
  - left. eauto using addJob_full.
  - right. destruct (Z_le_gt_dec p 0) as [Hp | Hp].
    { left. repeat split; [lia | by left |].
      apply addJob_not_positive; [lia | by left]. }
    destruct (Z_le_gt_dec pr 0) as [Hpr | Hpr].
    { left. repeat split; [lia | by right |].
      apply addJob_not_positive; [lia | by right]. }
    right. repeat split; try lia. apply addJob_accepts; lia.
Qed.

Lemma addJob_inv p pr st : repo_inv st -> repo_inv (addJob p pr st).2.
Proof.
  intros (Hc & Hn & Hl & Hid).
  destruct (addJob_cases p pr st) as
    [[_ ->] | [(Hlt & _ & ->) | (Hlt & Hp & Hpr & ->)]]; simpl.
  - done.
  - unfold repo_inv; simpl. rewrite incr_decr; [done |].
    unfold Int.in_range, Int.INT_MIN, Int.INT_MAX, MAX_JOBS in *; lia.
  - unfold repo_inv; simpl.
    rewrite !add_exact
      by (unfold Int.in_range, Int.INT_MIN, Int.INT_MAX, MAX_JOBS in *; lia).
    repeat split; try lia.
    + by rewrite length_insert.
    + intros i j Hi Hj.
      destruct (decide (i = Z.to_nat (job_count st))) as [-> | Hne].
      * rewrite list_lookup_insert_eq in Hj
          by (rewrite Hl; unfold MAX_JOBS in *; lia).
        injection Hj as <-; simpl. lia.
      * rewrite list_lookup_insert_ne in Hj by done.
        apply Hid in Hj; lia.
Qed.

(** Under the invariant the stored ids are 1, 2, ..., [job_count]. *)
Lemma pending_ids st :
  repo_inv st ->
  job_id <$> pending st = seqZ 1 (job_count st).
Proof.
  intros (Hc & _ & Hl & Hid). unfold pending.
  apply list_eq; intros i.
  rewrite !list_lookup_fmap.
  destruct (decide (i < Z.to_nat (job_count st))%nat) as [Hi | Hi].
  - rewrite lookup_take_lt by done.
    rewrite lookup_seqZ_lt by lia.
    destruct (job_queue st !! i) as [j |] eqn:Ej; simpl.
    + f_equal. rewrite (Hid i j) by (done || lia). lia.
    + apply lookup_ge_None in Ej. unfold MAX_JOBS in *; lia.
  - rewrite lookup_take_ge by lia.
    rewrite lookup_seqZ_ge by lia. done.
Qed.

(** An accepted job is appended to the pending sequence. *)
Lemma pending_snoc st j n :
  repo_inv st -> job_count st < MAX_JOBS ->
  pending (mkRepo (<[Z.to_nat (job_count st) := j]> (job_queue st))
                  (Int.add (job_count st) 1) n)
  = pending st ++ [j].
Proof.
  intros (Hc & _ & Hl & _) Hlt. unfold pending; simpl.
  rewrite add_exact
    by (unfold Int.in_range, Int.INT_MIN, Int.INT_MAX, MAX_JOBS in *; lia).
  replace (Z.to_nat (job_count st + 1)) with (S (Z.to_nat (job_count st))) by lia.
  erewrite take_S_r
    by (apply list_lookup_insert_eq; rewrite Hl; unfold MAX_JOBS in *; lia).
  by rewrite take_insert_ge.
Qed.

Lemma submit_all_ids subs : forall st,
  repo_inv st ->
  accepted_ids (submit_all subs st).1
    = seqZ (next_job_id st) (Z.of_nat (length (accepted_ids (submit_all subs st).1)))
  /\ repo_inv (submit_all subs st).2
  /\ job_count (submit_all subs st).2
     = job_count st + Z.of_nat (length (accepted_ids (submit_all subs st).1)).
Proof.
  induction subs as [| [p pr] subs IH]; intros st Hinv; simpl.
  { split_and!; [done | done | lia]. }
  pose proof (addJob_inv p pr st Hinv) as Hinv'.
  destruct (IH _ Hinv') as (Hids & Hfin & Hcnt).
  destruct Hinv as (Hc & Hn & Hl & Hid).
  destruct (addJob_cases p pr st) as
    [[_ E] | [(Hlt & _ & E) | (Hlt & Hp & Hpr & E)]];
    rewrite E in *; simpl in *;
    destruct (submit_all subs _) as [rs st'']; simpl in *.
  - done.
  - rewrite incr_decr in Hids
      by (unfold Int.in_range, Int.INT_MIN, Int.INT_MAX, MAX_JOBS in *; lia).
    done.
  - rewrite !add_exact in *
      by (unfold Int.in_range, Int.INT_MIN, Int.INT_MAX, MAX_JOBS in *; lia).
    split_and!; [| done | lia].
    rewrite Hids at 1.
    rewrite Nat2Z.inj_succ, <- Z.add_1_r.
    rewrite (seqZ_cons (next_job_id st)) by lia.
    do 2 f_equal; lia.
Qed.

(** ** The simulations leave the globals alone *)

Lemma runFCFS_state st : (runFCFS st).2 = st.
Proof. unfold runFCFS. by destruct (job_count st =? 0). Qed.

Lemma runSJF_state `{Q : Qsort} st : (runSJF st).2 = st.
Proof. unfold runSJF. by destruct (job_count st =? 0). Qed.

Lemma runPriority_state `{Q : Qsort} st : (runPriority st).2 = st.
Proof. unfold runPriority. by destruct (job_count st =? 0). Qed.

Lemma dispatch_state `{Q : Qsort} c st :
  (dispatch c st).2 =
    match c with CmdAdd p pr => (addJob p pr st).2 | _ => st end.
Proof.
  destruct c; simpl.
  - by destruct (addJob _ _ st).
  - by rewrite (surjective_pairing (runFCFS st)), runFCFS_state.
  - by rewrite (surjective_pairing (runSJF st)), runSJF_state.
  - by rewrite (surjective_pairing (runPriority st)), runPriority_state.
Qed.

Lemma dispatch_inv `{Q : Qsort} c st : repo_inv st -> repo_inv (dispatch c st).2.
Proof.
  intros H. rewrite dispatch_state. destruct c; auto using addJob_inv.
Qed.

Lemma dispatch_accepted `{Q : Qsort} c st :
  repo_inv st -> int_inputs c ->
  Forall accepted_job (pending st) ->
  Forall accepted_job (pending (dispatch c st).2).
Proof.
  intros Hinv Hc Hacc. rewrite dispatch_state. destruct c as [p pr | | |]; try done.
  destruct Hc as [Hp Hpr].
  destruct (addJob_cases p pr st) as
    [[_ ->] | [(Hlt & _ & ->) | (Hlt & Hp' & Hpr' & ->)]]; simpl; try done.
  rewrite pending_snoc by done.
  apply Forall_app; split; [done |].
  apply Forall_singleton. unfold accepted_job, Int.in_range in *; simpl. lia.
Qed.

Lemma reachable_inv `{Q : Qsort} st :
  reachable st -> repo_inv st /\ Forall accepted_job (pending st).
Proof.
  induction 1 as [| c st Hr [IHi IHa] Hc].
  - split; [apply initial_inv | by unfold pending; simpl].
  - split; [by apply dispatch_inv | by apply dispatch_accepted].
Qed.

(** ** The timeline simulator *)

Lemma loop_printed l : forall m,
  printed (fold_left metrics_step l m) = printed m ++ lines_from (current_time m) l.
Proof.
  induction l as [| job l IH]; intros m; simpl.
  - by rewrite app_nil_r.
  - rewrite IH; simpl. by rewrite <- app_assoc.
Qed.

Lemma calculateMetrics_rows queue count :
  rows (calculateMetrics queue count) = lines_from 0 (take (Z.to_nat count) queue).
Proof. unfold calculateMetrics, metrics_loop; simpl. by rewrite loop_printed. Qed.

Lemma lines_from_jobs l : forall t, row_job <$> lines_from t l = l.
Proof. induction l as [| job l IH]; intros t; simpl; [done | by rewrite IH]. Qed.

Lemma lines_from_length l : forall t, length (lines_from t l) = length l.
Proof. induction l as [| job l IH]; intros t; simpl; [done | by rewrite IH]. Qed.

(** The simulator prints one line per job, in the order it was given. *)
Lemma calculateMetrics_served queue count :
  served (calculateMetrics queue count) = take (Z.to_nat count) queue.
Proof. unfold served. by rewrite calculateMetrics_rows, lines_from_jobs. Qed.

Lemma lines_from_first l t r :
  lines_from t l !! 0%nat = Some r -> wait_time r = t.
Proof. destruct l; simpl; [done |]. by intros [= <-]. Qed.

Lemma lines_from_next l : forall t k r r',
  lines_from t l !! k = Some r -> lines_from t l !! S k = Some r' ->
  wait_time r' = Int.add (wait_time r) (page_count (row_job r)).
Proof.
  induction l as [| job l IH]; intros t k r r' Hr Hr'; [done |].
  destruct k as [| k]; simpl in *.
  - injection Hr as <-; simpl. by apply lines_from_first in Hr'.
  - eapply IH; eauto.
Qed.

Lemma lines_from_turnaround l : forall t k r,
  lines_from t l !! k = Some r ->
  turnaround_time r = Int.add (wait_time r) (page_count (row_job r)).
Proof.
  induction l as [| job l IH]; intros t k r Hr; [done |].
  destruct k as [| k]; simpl in *.
  - by injection Hr as <-.
  - eapply IH; eauto.
Qed.

(** With the additions of the machine the timing relations always hold. *)
Lemma lines_from_timeline_int l : timeline_int (lines_from 0 l).
Proof.
  split_and!.
  - apply lines_from_first.
  - apply lines_from_next.
  - apply lines_from_turnaround.
Qed.

Lemma calculateMetrics_timeline_int queue count :
  timeline_int (rows (calculateMetrics queue count)).
Proof. rewrite calculateMetrics_rows. apply lines_from_timeline_int. Qed.

Lemma total_pages_nonneg l :
  Forall (fun j => 0 < page_count j) l -> 0 <= total_pages l.
Proof. induction 1; simpl; lia. Qed.

(** While the clock stays below [INT_MAX], no addition of the loop wraps. *)
Lemma lines_from_bounds l : forall t k r,
  Forall (fun j => 0 < page_count j) l ->
  0 <= t -> t + total_pages l <= Int.INT_MAX ->
  lines_from t l !! k = Some r ->
  0 <= wait_time r /\ wait_time r + page_count (row_job r) <= Int.INT_MAX
  /\ 0 < page_count (row_job r).
Proof.
  induction l as [| job l IH]; intros t k r Hpos Ht Hsum Hr; [done |].
  apply Forall_cons in Hpos as [Hj Hl].
  pose proof (total_pages_nonneg l Hl).
  simpl in Hsum.
  destruct k as [| k]; simpl in Hr.
  - injection Hr as <-; simpl. lia.
  - rewrite add_exact in Hr
      by (unfold Int.in_range, Int.INT_MIN, Int.INT_MAX in *; lia).
    apply (IH (t + page_count job) k r); [done | lia | lia | done].
Qed.

Lemma lines_from_timeline l :
  Forall (fun j => 0 < page_count j) l ->
  total_pages l <= Int.INT_MAX ->
  timeline (lines_from 0 l).
Proof.
  intros Hpos Hsum.
  destruct (lines_from_timeline_int l) as (H0 & Hn & Ht).
  split_and!; [done | |].
  - intros k r r' Hr Hr'. rewrite (Hn k r r') by done.
    destruct (lines_from_bounds l 0 k r) as (? & ? & ?); try done.
    apply add_exact. unfold Int.in_range, Int.INT_MIN, Int.INT_MAX in *; lia.
  - intros k r Hr. rewrite (Ht k r) by done.
    destruct (lines_from_bounds l 0 k r) as (? & ? & ?); try done.
    apply add_exact. unfold Int.in_range, Int.INT_MIN, Int.INT_MAX in *; lia.
Qed.

(** ** Sorted sequences *)

Section SortedFacts.
Context {A : Type}.
Implicit Types (R S : A -> A -> Prop) (l : list A).

(** A relation may be exchanged for another one that agrees with it on
    the members of the list. *)
Lemma StronglySorted_on_members R S l :
  (forall a b, a ∈ l -> b ∈ l -> R a b -> S a b) ->
  StronglySorted R l -> StronglySorted S l.
Proof.
  intros HRS Hl. induction Hl as [| x l Hl IH Hx]; constructor.
  - apply IH. intros a b Ha Hb. apply HRS; by right.
  - rewrite Forall_forall in *. intros b Hb.
    apply HRS; [by left | by right | by apply Hx].
Qed.

Lemma StronglySorted_filter R (P : A -> Prop) `{forall x, Decision (P x)} l :
  StronglySorted R l -> StronglySorted R (filter P l).
Proof.
  induction 1 as [| x l Hl IH Hx]; [constructor |].
  rewrite filter_cons. destruct (decide (P x)); [| done].
  constructor; [done |].
  rewrite Forall_forall in *. intros b Hb.
  apply list_elem_of_filter in Hb as [_ Hb]. by apply Hx.
Qed.

Lemma StronglySorted_at R l : forall i i' a b,
  StronglySorted R l -> (i < i')%nat ->
  l !! i = Some a -> l !! i' = Some b -> R a b.
Proof.
  induction l as [| x l IH]; intros i i' a b Hl Hlt Ha Hb; [done |].
  apply StronglySorted_cons in Hl as [Hx Hl].
  destruct i' as [| i']; [lia |].
  destruct i as [| i]; simpl in *.
  - injection Ha as <-. rewrite Forall_forall in Hx.
    apply Hx. by eapply list_elem_of_lookup_2.
  - apply (IH i i'); auto with lia.
Qed.

(** A function that has no repeated value along [l] is injective on
    the members of [l]. *)
Lemma NoDup_fmap_members {B} (f : A -> B) l a b :
  NoDup (f <$> l) -> a ∈ l -> b ∈ l -> f a = f b -> a = b.
Proof.
  intros Hnd Ha Hb Hab.
  apply list_elem_of_lookup in Ha as [i Hi].
  apply list_elem_of_lookup in Hb as [j Hj].
  assert (i = j) as ->; [| congruence].
  apply (NoDup_lookup (f <$> l) i j (f a)); [done | |].
  - by rewrite list_lookup_fmap, Hi.
  - by rewrite list_lookup_fmap, Hj, Hab.
Qed.

End SortedFacts.

(** ** Insertion sort meets the qsort contract *)

Section InsertionSortFacts.
Variable before : Z -> bool.
Variable compar : PrintJob -> PrintJob -> Z.

Hypothesis before_sound : forall c, before c = true -> c <= 0.
Hypothesis before_complete : forall c, before c = false -> 0 <= c.

Lemma place_permutes x l : place before compar x l ≡ₚ x :: l.
Proof.
  induction l as [| y l IH]; simpl; [done |].
  destruct (before (compar x y)); [done |].
  rewrite IH. apply Permutation_swap.
Qed.

Lemma insertion_sort_permutes l : insertion_sort before compar l ≡ₚ l.
Proof.
  induction l as [| x l IH]; simpl; [done |].
  by rewrite place_permutes, IH.
Qed.

Lemma place_ascending (L : list PrintJob) x l :
  consistent_on L compar -> x ∈ L -> l ⊆ L ->
  StronglySorted (fun a b => compar a b <= 0) l ->
  StronglySorted (fun a b => compar a b <= 0) (place before compar x l).
Proof.
  intros [Hsym Htrans] Hx Hsub Hl.
  induction Hl as [| y l Hl IH Hy]; simpl.
  { repeat constructor. }
  assert (y ∈ L) as HyL by (apply Hsub; by left).
  assert (l ⊆ L) as HlL by (intros z Hz; apply Hsub; by right).
  rewrite Forall_forall in Hy.
  destruct (before (compar x y)) eqn:E.
  - apply before_sound in E.
    constructor; [by constructor; [| apply Forall_forall] |].
    apply Forall_cons; split; [done |].
    apply Forall_forall; intros z Hz. apply (Htrans x y z); auto.
  - apply before_complete in E.
    constructor; [by apply IH |].
    rewrite place_permutes. apply Forall_cons; split.
    + specialize (Hsym x y Hx HyL). lia.
    + by apply Forall_forall.
Qed.

Lemma insertion_sort_ascending l :
  consistent_on l compar ->
  StronglySorted (fun a b => compar a b <= 0) (insertion_sort before compar l).
Proof.
  intros Hc.
  cut (forall k, k ⊆ l ->
         StronglySorted (fun a b => compar a b <= 0)
                        (insertion_sort before compar k)).
  { intros H. by apply H. }
  induction k as [| x k IH]; intros Hk; simpl; [constructor |].
  apply (place_ascending l); [done | apply Hk; by left | |].
  - intros z Hz. rewrite insertion_sort_permutes in Hz. apply Hk; by right.
  - apply IH. intros z Hz. apply Hk; by right.
Qed.

End InsertionSortFacts.

Lemma stops_at_equal_sound c : stops_at_equal c = true -> c <= 0.
Proof. unfold stops_at_equal; lia. Qed.

Lemma stops_at_equal_complete c : stops_at_equal c = false -> 0 <= c.
Proof. unfold stops_at_equal; lia. Qed.

Lemma passes_equal_sound c : passes_equal c = true -> c <= 0.
Proof. unfold passes_equal; lia. Qed.

Lemma passes_equal_complete c : passes_equal c = false -> 0 <= c.
Proof. unfold passes_equal; lia. Qed.

(** A C library whose [qsort] keeps equal elements in their order. *)
Definition libc_keeping_ties : Qsort := {|
  qsort := qsort_keeping_ties;
  qsort_permutes := fun base compar =>
    insertion_sort_permutes stops_at_equal compar base;
  qsort_ascending := fun base compar =>
    insertion_sort_ascending stops_at_equal compar
      stops_at_equal_sound stops_at_equal_complete base
|}.

(** A C library whose [qsort] reverses equal elements. *)
Definition libc_reversing_ties : Qsort := {|
  qsort := qsort_reversing_ties;
  qsort_permutes := fun base compar =>
    insertion_sort_permutes passes_equal compar base;
  qsort_ascending := fun base compar =>
    insertion_sort_ascending passes_equal compar
      passes_equal_sound passes_equal_complete base
|}.

Lemma StronglySorted_by_position {A} (R : A -> A -> Prop) (l : list A) :
  (forall i i' a b, (i < i')%nat -> l !! i = Some a -> l !! i' = Some b -> R a b) ->
  StronglySorted R l.
Proof.
  induction l as [| x l IH]; intros H; constructor.
  - apply IH. intros i i' a b Hlt Ha Hb. apply (H (S i) (S i')); auto with lia.
  - apply Forall_forall. intros b Hb.
    apply list_elem_of_lookup in Hb as [i Hi].
    apply (H 0%nat (S i)); auto with lia.
Qed.

(** ** The pending jobs of a reachable repository *)

Lemma pending_lookup st i j :
  pending st !! i = Some j ->
  (Z.of_nat i < job_count st) /\ job_queue st !! i = Some j.
Proof.
  unfold pending. intros H. apply lookup_take_Some in H as [H Hi].
  split; [lia | done].
Qed.

Lemma pending_by_id st :
  repo_inv st ->
  StronglySorted (fun a b => job_id a < job_id b) (pending st).
Proof.
  intros (_ & _ & _ & Hid). apply StronglySorted_by_position.
  intros i i' a b Hlt Ha Hb.
  apply pending_lookup in Ha as [Hi Ha], Hb as [Hi' Hb].
  rewrite (Hid i a), (Hid i' b) by done. lia.
Qed.

Lemma pending_id_range st j :
  repo_inv st -> j ∈ pending st -> 0 < job_id j <= MAX_JOBS.
Proof.
  intros (Hc & _ & _ & Hid) Hj.
  apply list_elem_of_lookup in Hj as [i Hi].
  apply pending_lookup in Hi as [Hi Hj].
  rewrite (Hid i j) by done. lia.
Qed.

Lemma pending_ids_NoDup st : repo_inv st -> NoDup (job_id <$> pending st).
Proof. intros H. rewrite pending_ids by done. apply NoDup_seqZ. Qed.

(** ** The comparators on accepted jobs *)

Lemma compareSJF_exact a b :
  accepted_job a -> accepted_job b ->
  compareSJF a b = page_count a - page_count b.
Proof.
  intros [Ha _] [Hb _]. apply sub_exact.
  unfold Int.in_range, Int.INT_MIN, Int.INT_MAX in *; lia.
Qed.

Lemma comparePriority_exact a b :
  accepted_job a -> accepted_job b ->
  0 < job_id a <= MAX_JOBS -> 0 < job_id b <= MAX_JOBS ->
  comparePriority a b =
    if priority a =? priority b then job_id a - job_id b
    else priority a - priority b.
Proof.
  intros [_ Ha] [_ Hb] Hia Hib. unfold comparePriority.
  destruct (priority a =? priority b); simpl; apply sub_exact;
    unfold Int.in_range, Int.INT_MIN, Int.INT_MAX, MAX_JOBS in *; lia.
Qed.

Lemma compareSJF_consistent l :
  Forall accepted_job l -> consistent_on l compareSJF.
Proof.
  rewrite Forall_forall. intros Hl. split.
  - intros a b Ha Hb. rewrite !compareSJF_exact by auto. lia.
  - intros a b c Ha Hb Hc. rewrite !compareSJF_exact by auto. lia.
Qed.

Lemma comparePriority_consistent l :
  Forall accepted_job l ->
  Forall (fun j => 0 < job_id j <= MAX_JOBS) l ->
  consistent_on l comparePriority.
Proof.
  rewrite !Forall_forall. intros Hl Hid. split.
  - intros a b Ha Hb. rewrite !comparePriority_exact by auto.
    destruct (Z.eqb_spec (priority a) (priority b)),
             (Z.eqb_spec (priority b) (priority a)); lia.
  - intros a b c Ha Hb Hc. rewrite !comparePriority_exact by auto.
    destruct (Z.eqb_spec (priority a) (priority b)),
             (Z.eqb_spec (priority b) (priority c)),
             (Z.eqb_spec (priority a) (priority c)); lia.
Qed.

(** ** The orders handed to the simulator *)

Section Orders.
Context `{Q : Qsort}.

Lemma sjf_order_permutes st : sjf_order st ≡ₚ pending st.
Proof. apply qsort_permutes. Qed.

Lemma priority_order_permutes st : priority_order st ≡ₚ pending st.
Proof. apply qsort_permutes. Qed.

Lemma sjf_order_ascending st :
  reachable st -> ascending_by page_count (sjf_order st).
Proof.
  intros Hr. apply reachable_inv in Hr as [Hinv Hacc].
  pose proof (qsort_ascending (pending st) compareSJF
                (compareSJF_consistent _ Hacc)) as Hs.
  unfold ascending_by. eapply StronglySorted_on_members; [| exact Hs].
  rewrite Forall_forall in Hacc.
  intros a b Ha Hb. fold (sjf_order st) in Ha, Hb.
  rewrite sjf_order_permutes in Ha, Hb.
  rewrite compareSJF_exact by auto. lia.
Qed.

Lemma priority_order_sorted st :
  reachable st ->
  StronglySorted
    (fun a b => priority a < priority b \/
                (priority a = priority b /\ job_id a <= job_id b))
    (priority_order st).
Proof.
  intros Hr. apply reachable_inv in Hr as [Hinv Hacc].
  assert (Forall (fun j => 0 < job_id j <= MAX_JOBS) (pending st)) as Hid.
  { apply Forall_forall. intros j. by apply pending_id_range. }
  pose proof (qsort_ascending (pending st) comparePriority
                (comparePriority_consistent _ Hacc Hid)) as Hs.
  eapply StronglySorted_on_members; [| exact Hs].
  rewrite Forall_forall in Hacc, Hid.
  intros a b Ha Hb. fold (priority_order st) in Ha, Hb.
  rewrite priority_order_permutes in Ha, Hb.
  rewrite comparePriority_exact by auto.
  destruct (Z.eqb_spec (priority a) (priority b)); lia.
Qed.

Lemma priority_order_ascending st :
  reachable st -> ascending_by priority (priority_order st).
Proof.
  intros Hr. unfold ascending_by.
  eapply StronglySorted_on_members; [| by apply priority_order_sorted].
  simpl. lia.
Qed.

Lemma priority_order_ties_by_id st :
  reachable st -> ties_by_id priority (priority_order st).
Proof.
  intros Hr i i' a b Hlt Ha Hb Hp.
  pose proof (StronglySorted_at _ _ i i' a b
                (priority_order_sorted st Hr) Hlt Ha Hb) as Hab.
  simpl in Hab.
  apply reachable_inv in Hr as [Hinv _].
  assert (NoDup (job_id <$> priority_order st)) as Hnd.
  { rewrite priority_order_permutes. by apply pending_ids_NoDup. }
  assert (job_id a <> job_id b); [| lia].
  intros Heq.
  assert (i = i'); [| lia].
  apply (NoDup_lookup (job_id <$> priority_order st) i i' (job_id a));
    [done | |]; rewrite list_lookup_fmap.
  - by rewrite Ha.
  - by rewrite Hb, Heq.
Qed.

Lemma priority_order_keeps_ties st :
  reachable st -> keeps_ties priority (pending st) (priority_order st).
Proof.
  intros Hr k.
  pose proof (priority_order_sorted st Hr) as Hs.
  apply reachable_inv in Hr as [Hinv _].
  apply (StronglySorted_unique_strong (fun a b => job_id a <= job_id b)).
  - intros a b Ha Hb Hab Hba.
    apply list_elem_of_filter in Ha as [_ Ha], Hb as [_ Hb].
    rewrite priority_order_permutes in Ha.
    apply (NoDup_fmap_members job_id (pending st));
      [by apply pending_ids_NoDup | done | done | lia].
  - eapply StronglySorted_on_members;
      [| apply StronglySorted_filter; exact Hs].
    intros a b Ha Hb; simpl.
    apply list_elem_of_filter in Ha as [Ha _], Hb as [Hb _]. lia.
  - eapply StronglySorted_on_members;
      [| apply StronglySorted_filter; by apply pending_by_id].
    intros a b _ _; simpl. lia.
  - by rewrite priority_order_permutes.
Qed.

End Orders.

(** ** Doubles that hold integers: conversion and addition are exact *)

Lemma iter_pos_nat {A} (f : A -> A) p : forall x,
  SpecFloat.iter_pos f p x = Nat.iter (Pos.to_nat p) f x.
Proof.
  induction p as [p IH | p IH |]; intros x; cbn [SpecFloat.iter_pos].
  - rewrite !IH, Pos2Nat.inj_xI.
    replace (S (2 * Pos.to_nat p)) with (Pos.to_nat p + (Pos.to_nat p + 1))%nat by lia.
    rewrite !Nat.iter_add. simpl. done.
  - rewrite !IH, Pos2Nat.inj_xO.
    replace (2 * Pos.to_nat p)%nat with (Pos.to_nat p + Pos.to_nat p)%nat by lia.
    by rewrite Nat.iter_add.
  - done.
Qed.

Lemma shl_add p n m : shl (shl p n) m = shl p (n + m).
Proof.
  induction m as [| m IH]; simpl.
  - by rewrite Nat.add_0_r.
  - rewrite IH. by replace (n + S m)%nat with (S (n + m)) by lia.
Qed.

Lemma pos_iter_shl m p : Pos.iter xO m p = shl m (Pos.to_nat p).
Proof.
  rewrite Pos2Nat.inj_iter.
  induction (Pos.to_nat p) as [| n IH]; simpl; [done | by rewrite IH].
Qed.

Lemma digits_shl p n : digits (shl p n) = digits p + Z.of_nat n.
Proof.
  unfold digits. induction n as [| n IH]; simpl; [lia |].
  rewrite Pos2Z.inj_succ, IH. lia.
Qed.

Lemma Zpos_shl p n : Zpos (shl p n) = Zpos p * 2 ^ Z.of_nat n.
Proof.
  induction n as [| n IH]; [simpl; lia |].
  rewrite Nat2Z.inj_succ, Z.pow_succ_r by lia.
  change (shl p (S n)) with (xO (shl p n)).
  rewrite Pos2Z.inj_xO, IH. lia.
Qed.

Lemma shr_shl q n :
  Nat.iter n shr_1 (Build_shr_record (Zpos (shl q n)) false false)
  = Build_shr_record (Zpos q) false false.
Proof.
  induction n as [| n IH]; [done |].
  rewrite Nat.iter_succ_r. simpl. exact IH.
Qed.

Lemma digits_pow p n : 0 <= n -> Zpos p < 2 ^ n -> digits p <= n.
Proof.
  intros Hn Hp. unfold digits.
  pose proof (Pos.size_le p) as H.
  change (digits2_pos p) with (Pos.size p).
  destruct (Z_le_gt_dec (Zpos (Pos.size p)) n) as [| Hgt]; [done |].
  exfalso.
  assert (2 ^ Zpos (Pos.size p) <= Zpos p~0) as H'.
  { apply Pos2Z.pos_le_pos in H. by rewrite Pos2Z.inj_pow in H. }
  assert (2 ^ (n + 1) <= 2 ^ Zpos (Pos.size p)) by (apply Z.pow_le_mono_r; lia).
  rewrite Z.pow_add_r in * by lia. lia.
Qed.

Lemma fexp_normal e : -1074 <= e - 53 -> fexp 53 1024 e = e - 53.
Proof. unfold fexp, emin. lia. Qed.

Lemma shr_nat mrs e n :
  shr mrs e (Z.of_nat n) = (Nat.iter n shr_1 mrs, e + Z.of_nat n).
Proof.
  destruct n as [| n]; simpl.
  - f_equal; lia.
  - by rewrite iter_pos_nat, SuccNat2Pos.id_succ.
Qed.

Lemma shr_fexp_exact q n e :
  digits q = 53 -> -1074 <= e + Z.of_nat n ->
  shr_fexp 53 1024 (Zpos (shl q n)) e loc_Exact
  = (Build_shr_record (Zpos q) false false, e + Z.of_nat n).
Proof.
  intros Hq He. unfold shr_fexp.
  change (Zdigits2 (Zpos (shl q n))) with (digits (shl q n)).
  rewrite digits_shl, Hq, fexp_normal by lia.
  replace (53 + Z.of_nat n + e - 53 - e) with (Z.of_nat n) by lia.
  rewrite shr_nat. simpl. by rewrite shr_shl.
Qed.

Lemma round_aux_exact s q n e :
  digits q = 53 -> -1074 <= e + Z.of_nat n -> e + Z.of_nat n <= 971 ->
  binary_round_aux 53 1024 s (Zpos (shl q n)) e loc_Exact
  = S754_finite s q (e + Z.of_nat n).
Proof.
  intros Hq Hlo Hhi. unfold binary_round_aux.
  rewrite shr_fexp_exact by done. simpl.
  rewrite (shr_fexp_exact q 0) by (done || simpl; lia). simpl.
  rewrite ?Z.add_0_r. change (1024 - 53) with 971.
  destruct (Z.leb_spec (e + Z.of_nat n) 971); [done | lia].
Qed.

(** Rounding a mantissa [z * 2^k] of at most 53 significant bits. *)
Lemma round_exact s z k e :
  digits z <= 53 ->
  -1074 <= e + Z.of_nat k + digits z - 53 <= 971 ->
  binary_round 53 1024 s (shl z k) e
  = S754_finite s (shl z (Z.to_nat (53 - digits z)))
                (e + Z.of_nat k + digits z - 53).
Proof.
  intros Hz Hb. unfold binary_round.
  change (Zpos (digits2_pos (shl z k))) with (digits (shl z k)).
  rewrite digits_shl, fexp_normal by lia.
  unfold shl_align.
  assert (1 <= digits z) by (unfold digits; lia).
  destruct (digits z + Z.of_nat k + e - 53 - e) as [| d | d] eqn:E.
  - (* the mantissa has 53 bits *)
    replace (shl z k) with (shl (shl z (Z.to_nat (53 - digits z))) 0).
    2:{ simpl. f_equal. lia. }
    rewrite round_aux_exact; [f_equal; lia | | lia | lia].
    rewrite digits_shl. lia.
  - (* more than 53 bits: the low ones are zero *)
    replace (shl z k)
      with (shl (shl z (Z.to_nat (53 - digits z))) (Pos.to_nat d)).
    2:{ rewrite shl_add. f_equal. lia. }
    rewrite round_aux_exact; [f_equal; lia | | lia | lia].
    rewrite digits_shl. lia.
  - (* fewer than 53 bits: shifted left *)
    rewrite pos_iter_shl, shl_add.
    replace (k + Pos.to_nat d)%nat with (Z.to_nat (53 - digits z) + 0)%nat by lia.
    rewrite <- shl_add.
    rewrite round_aux_exact; [f_equal; lia | | lia | lia].
    rewrite digits_shl. lia.
Qed.

Lemma normalize_scaled z k e :
  Z.abs z < 2 ^ 53 -> e + Z.of_nat k = 0 ->
  binary_normalize 53 1024 (z * 2 ^ Z.of_nat k) e false = normal_form z.
Proof.
  intros Hz He. destruct z as [| p | p]; simpl normal_form.
  - done.
  - assert (digits p <= 53) by (apply digits_pow; lia).
    assert (1 <= digits p) by (unfold digits; lia).
    rewrite <- Zpos_shl. simpl.
    rewrite round_exact by lia. f_equal. lia.
  - assert (digits p <= 53) by (apply digits_pow; lia).
    assert (1 <= digits p) by (unfold digits; lia).
    replace (Z.neg p * 2 ^ Z.of_nat k) with (Z.neg (shl p k)).
    2:{ rewrite <- !Pos2Z.opp_pos, Zpos_shl. lia. }
    simpl. rewrite round_exact by lia. f_equal. lia.
Qed.

(** An [int], and any integer below 2^53 in magnitude, converts to
    [double] without rounding. *)
Lemma of_int_normal z : Z.abs z < 2 ^ 53 -> Double.of_int z = normal_form z.
Proof.
  intros Hz. unfold Double.of_int, Double.prec, Double.emax.
  rewrite <- (normalize_scaled z 0 0) by done.
  f_equal. simpl. lia.
Qed.

Lemma shl_align_fst m e e' :
  e' <= e -> fst (shl_align m e e') = shl m (Z.to_nat (e - e')).
Proof.
  intros He. unfold shl_align.
  destruct (e' - e) as [| d | d] eqn:E; simpl.
  - by replace (e - e') with 0 by lia.
  - lia.
  - rewrite pos_iter_shl. f_equal. lia.
Qed.

Lemma normal_form_signed s p :
  normal_form (cond_Zopp s (Zpos p)) = finite_form s p.
Proof. by destruct s. Qed.

Lemma add_finite sa sb pa pb :
  Zpos pa < 2 ^ 53 -> Zpos pb < 2 ^ 53 ->
  Z.abs (cond_Zopp sa (Zpos pa) + cond_Zopp sb (Zpos pb)) < 2 ^ 53 ->
  Double.add (finite_form sa pa) (finite_form sb pb)
  = normal_form (cond_Zopp sa (Zpos pa) + cond_Zopp sb (Zpos pb)).
Proof.
  intros Ha Hb Hab.
  assert (digits pa <= 53) by (apply digits_pow; lia).
  assert (digits pb <= 53) by (apply digits_pow; lia).
  assert (1 <= digits pa) by (unfold digits; lia).
  assert (1 <= digits pb) by (unfold digits; lia).
  rewrite <- (normalize_scaled (cond_Zopp sa (Zpos pa) + cond_Zopp sb (Zpos pb))
                (Z.to_nat (53 - Z.min (digits pa) (digits pb)))
                (Z.min (digits pa - 53) (digits pb - 53))) by (done || lia).
  unfold Double.add, Double.prec, Double.emax, finite_form, SFadd.
  rewrite !shl_align_fst, !shl_add by lia.
  f_equal.
  rewrite Z.mul_add_distr_r. f_equal.
  - destruct sa; unfold cond_Zopp; rewrite Zpos_shl, ?Z.mul_opp_l;
      repeat f_equal; lia.
  - destruct sb; unfold cond_Zopp; rewrite Zpos_shl, ?Z.mul_opp_l;
      repeat f_equal; lia.
Qed.

(** The sum of two such values is computed without rounding when it is
    itself below 2^53 in magnitude. *)
Lemma add_normal a b :
  Z.abs a < 2 ^ 53 -> Z.abs b < 2 ^ 53 -> Z.abs (a + b) < 2 ^ 53 ->
  Double.add (normal_form a) (normal_form b) = normal_form (a + b).
Proof.
  intros Ha Hb Hab.
  destruct a as [| pa | pa]; [by destruct b | |];
    (destruct b as [| pb | pb]; [done | |]).
  - apply (add_finite false false); simpl; lia.
  - apply (add_finite false true); simpl; lia.
  - apply (add_finite true false); simpl; lia.
  - apply (add_finite true true); simpl; lia.
Qed.

Lemma add_of_int a b :
  Z.abs a < 2 ^ 53 -> Z.abs b < 2 ^ 53 -> Z.abs (a + b) < 2 ^ 53 ->
  Double.add (Double.of_int a) (Double.of_int b) = Double.of_int (a + b).
Proof. intros. rewrite !of_int_normal by done. by apply add_normal. Qed.

(** ** The accumulated totals *)

Lemma in_range_abs z : Int.in_range z -> Z.abs z <= 2 ^ 31.
Proof. unfold Int.in_range, Int.INT_MIN, Int.INT_MAX. lia. Qed.

Lemma lines_from_wait_range l : forall t k r,
  Int.in_range t -> lines_from t l !! k = Some r -> Int.in_range (wait_time r).
Proof.
  induction l as [| job l IH]; intros t k r Ht Hr; [done |].
  destruct k as [| k]; simpl in Hr.
  - by injection Hr as <-.
  - eapply IH; [| exact Hr]. apply wrap_range.
Qed.

(** While the totals stay below 2^53 the two [double] accumulators hold
    the integer sums of the printed columns. *)
Lemma loop_totals l : forall m a b,
  Int.in_range (current_time m) ->
  total_wait_time m = Double.of_int a ->
  total_turnaround_time m = Double.of_int b ->
  Z.abs a + 2 ^ 31 * Z.of_nat (length l) < 2 ^ 53 ->
  Z.abs b + 2 ^ 31 * Z.of_nat (length l) < 2 ^ 53 ->
  total_wait_time (fold_left metrics_step l m)
    = Double.of_int (a + sum_Z (wait_time <$> lines_from (current_time m) l)) /\
  total_turnaround_time (fold_left metrics_step l m)
    = Double.of_int (b + sum_Z (turnaround_time <$> lines_from (current_time m) l)).
Proof.
  induction l as [| job l IH]; intros m a b Ht Ha Hb Hba Hbb; simpl.
  { by rewrite !Z.add_0_r. }
  simpl length in Hba, Hbb. rewrite Nat2Z.inj_succ in Hba, Hbb.
  pose proof (in_range_abs _ Ht) as Hw.
  pose proof (in_range_abs _ (wrap_range (current_time m + page_count job))) as Hta.
  fold (Int.add (current_time m) (page_count job)) in Hta.
  destruct (IH (metrics_step m job)
              (a + current_time m)
              (b + Int.add (current_time m) (page_count job))) as [IHw IHt].
  - apply wrap_range.
  - simpl. rewrite Ha. apply add_of_int; lia.
  - simpl. rewrite Hb. apply add_of_int; lia.
  - lia.
  - lia.
  - simpl in IHw, IHt. rewrite <- Z.add_assoc in IHw, IHt.
    split; [exact IHw | exact IHt].
Qed.

Lemma calculateMetrics_totals queue count :
  count <= MAX_JOBS ->
  let m := metrics_loop queue count in
  total_wait_time m = Double.of_int (sum_Z (wait_time <$> printed m)) /\
  total_turnaround_time m = Double.of_int (sum_Z (turnaround_time <$> printed m)).
Proof.
  intros Hc m. subst m. unfold metrics_loop.
  rewrite loop_printed; simpl.
  assert (Z.of_nat (length (take (Z.to_nat count) queue)) <= 100) as Hlen.
  { rewrite length_take. unfold MAX_JOBS in Hc. lia. }
  apply (loop_totals _ metrics_start 0 0); simpl; try done; try lia.
Qed.

(** ** What the simulations print *)

Lemma pending_length st : (length (pending st) <= Z.to_nat (job_count st))%nat.
Proof. unfold pending. rewrite length_take. lia. Qed.

Lemma pending_empty st : job_count st = 0 -> pending st = [].
Proof. unfold pending. by intros ->. Qed.

Lemma runFCFS_cases st :
  (job_count st = 0 /\ runFCFS st = (EmptyQueue, st)) \/
  (job_count st <> 0 /\
   runFCFS st = (Simulated (calculateMetrics (job_queue st) (job_count st)), st)).
Proof.
  unfold runFCFS. destruct (Z.eqb_spec (job_count st) 0); [left | right]; done.
Qed.

Section Printed.
Context `{Q : Qsort}.

Lemma runSJF_cases st :
  (job_count st = 0 /\ runSJF st = (EmptyQueue, st)) \/
  (job_count st <> 0 /\
   runSJF st = (Simulated (calculateMetrics (sjf_order st) (job_count st)), st)).
Proof.
  unfold runSJF. destruct (Z.eqb_spec (job_count st) 0); [left | right]; done.
Qed.

Lemma runPriority_cases st :
  (job_count st = 0 /\ runPriority st = (EmptyQueue, st)) \/
  (job_count st <> 0 /\
   runPriority st =
     (Simulated (calculateMetrics (priority_order st) (job_count st)), st)).
Proof.
  unfold runPriority. destruct (Z.eqb_spec (job_count st) 0); [left | right]; done.
Qed.

Lemma served_sjf st :
  served (calculateMetrics (sjf_order st) (job_count st)) = sjf_order st.
Proof.
  rewrite calculateMetrics_served. apply take_ge.
  rewrite sjf_order_permutes. apply pending_length.
Qed.

Lemma served_priority st :
  served (calculateMetrics (priority_order st) (job_count st)) = priority_order st.
Proof.
  rewrite calculateMetrics_served. apply take_ge.
  rewrite priority_order_permutes. apply pending_length.
Qed.

End Printed.

Lemma served_fcfs st :
  served (calculateMetrics (job_queue st) (job_count st)) = pending st.
Proof. apply calculateMetrics_served. Qed.

Lemma submit_all_reachable `{Q : Qsort} subs : forall st,
  Forall (fun s => Int.in_range s.1 /\ Int.in_range s.2) subs ->
  reachable st -> reachable (submit_all subs st).2.
Proof.
  induction subs as [| [p pr] subs IH]; intros st Hin Hr; simpl; [done |].
  apply Forall_cons in Hin as [Hs Hin].
  pose proof (reach_dispatch (CmdAdd p pr) st Hr Hs) as Hr'.
  rewrite dispatch_state in Hr'.
  specialize (IH _ Hin Hr').
  destruct (addJob p pr st) as [r st']; simpl in *.
  by destruct (submit_all subs st').
Qed.

Lemma scenario_reachable `{Q : Qsort} : reachable scenario_repo.
Proof.
  apply submit_all_reachable; [| constructor].
  repeat constructor; unfold Int.in_range, Int.INT_MIN, Int.INT_MAX; simpl; lia.
Qed.

Lemma tied_reachable `{Q : Qsort} : reachable tied_repo.
Proof.
  apply submit_all_reachable; [| constructor].
  repeat constructor; unfold Int.in_range, Int.INT_MIN, Int.INT_MAX; simpl; lia.
Qed.

(** ** The scenario of the specification, evaluated

    Sizes 10, 5, 20 with priorities 2, 1, 3 receive the ids 1, 2, 3.  The
    averages are binary64 values: 25/3, 20, 20/3 and 55/3 rounded to
    nearest. *)

Example scenario_pending :
  pending scenario_repo = [mkJob 1 10 2; mkJob 2 5 1; mkJob 3 20 3].
Proof. reflexivity. Qed.

Example scenario_fcfs :
  (runFCFS scenario_repo).1 =
    Simulated
      (mkReport [mkRow (mkJob 1 10 2) 0 10;
                 mkRow (mkJob 2 5 1) 10 15;
                 mkRow (mkJob 3 20 3) 15 35]
                (S754_finite false 4691249611844267 (-49))
                (S754_finite false 5629499534213120 (-48))).
Proof. vm_compute. reflexivity. Qed.

Example scenario_sjf :
  let Q := libc_reversing_ties in
  (runSJF scenario_repo).1 =
    Simulated
      (mkReport [mkRow (mkJob 2 5 1) 0 5;
                 mkRow (mkJob 1 10 2) 5 15;
                 mkRow (mkJob 3 20 3) 15 35]
                (S754_finite false 7505999378950827 (-50))
                (S754_finite false 5160374573028693 (-48))).
Proof. vm_compute. reflexivity. Qed.

Example scenario_priority :
  let Q := libc_reversing_ties in
  (runPriority scenario_repo).1 = (runSJF scenario_repo).1.
Proof. vm_compute. reflexivity. Qed.

(** With a [qsort] that keeps ties the two equal jobs of [tied_repo] stay
    in submission order. *)
Example tied_sjf_keeping :
  let Q := libc_keeping_ties in
  sjf_order tied_repo = [mkJob 1 5 1; mkJob 2 5 2].
Proof. reflexivity. Qed.

(** [calculateMetrics] itself does not test [count]: called with 0 it
    divides 0.0 by 0.0.  The three callers never do so. *)
Example calculateMetrics_zero_count queue :
  calculateMetrics queue 0 = mkReport [] S754_nan S754_nan.
Proof. reflexivity. Qed.

(** * The claims *)

(** C1, as amended.  For a job sequence with positive sizes whose sum does
    not exceed [INT_MAX], [calculateMetrics] prints one line per job in the
    given order; the first line has wait time 0, each later line has the
    wait time of its predecessor plus the predecessor's size, and every
    turnaround time is wait time plus size. *)
Theorem timeline_within_int queue count :
  Forall (fun j => 0 < page_count j) (take (Z.to_nat count) queue) ->
  total_pages (take (Z.to_nat count) queue) <= Int.INT_MAX ->
  served (calculateMetrics queue count) = take (Z.to_nat count) queue /\
  timeline (rows (calculateMetrics queue count)).
Proof.
  intros Hpos Hsum. split.
  - apply calculateMetrics_served.
  - rewrite calculateMetrics_rows. by apply lines_from_timeline.
Qed.

Lemma timeline_within_int_witness :
  served (calculateMetrics (job_queue scenario_repo) 3)
    = take 3 (job_queue scenario_repo) /\
  timeline (rows (calculateMetrics (job_queue scenario_repo) 3)).
Proof.
  apply (timeline_within_int (job_queue scenario_repo) 3).
  - vm_compute. repeat constructor.
  - vm_compute. discriminate.
Defined.

(** C1, as stated, fails when the clock passes [INT_MAX]: after a job of
    2147483647 pages and a job of 1 page, the second line of the FCFS table
    has wait time 2147483647 and turnaround time -2147483648. *)
Lemma timeline_wraps_past_int_max :
  exists r, (runFCFS overflow_repo).1 = Simulated r /\
            rows r !! 1%nat
              = Some (mkRow (mkJob 2 1 1) 2147483647 (-2147483648)) /\
            ~ timeline (rows r).
Proof.
  eexists. split; [vm_compute; reflexivity |]. split; [reflexivity |].
  intros (_ & _ & Ht).
  specialize (Ht 1%nat _ eq_refl). vm_compute in Ht. discriminate.
Qed.

(** C2 at the failing input.  Two jobs of 5 pages are submitted.  With a
    [qsort] that reverses elements comparing equal, which the contract
    allows since [compareSJF] returns 0 for them, [runSJF] serves job 2
    before job 1: sizes ascend, submission order among equal sizes is
    lost. *)
Theorem sjf_ties_not_kept :
  let Q := libc_reversing_ties in
  pending tied_repo = [mkJob 1 5 1; mkJob 2 5 2] /\
  compareSJF (mkJob 1 5 1) (mkJob 2 5 2) = 0 /\
  sjf_order tied_repo = [mkJob 2 5 2; mkJob 1 5 1] /\
  (exists r, (runSJF tied_repo).1 = Simulated r /\
             served r = [mkJob 2 5 2; mkJob 1 5 1]) /\
  ascending_by page_count (sjf_order tied_repo) /\
  ~ keeps_ties page_count (pending tied_repo) (sjf_order tied_repo) /\
  ~ ties_by_id page_count (sjf_order tied_repo).
Proof.
  intros Q. split_and!.
  - reflexivity.
  - reflexivity.
  - reflexivity.
  - eexists. split; [vm_compute; reflexivity | reflexivity].
  - apply sjf_order_ascending, tied_reachable.
  - intros H. specialize (H 5). vm_compute in H. discriminate.
  - intros H.
    assert (job_id (mkJob 2 5 2) < job_id (mkJob 1 5 1)) as Habs
      by (apply (H 0%nat 1%nat); [lia | reflexivity | reflexivity | reflexivity]).
    simpl in Habs. lia.
Qed.

(** C3.  In every reachable repository the order that [runPriority] hands
    to the simulator never decreases in priority, and jobs of equal
    priority keep their submission order, which is the order of ascending
    job_id; this order is the one of the printed table. *)
Theorem priority_order_stable `{Q : Qsort} st :
  reachable st ->
  ascending_by priority (priority_order st) /\
  keeps_ties priority (pending st) (priority_order st) /\
  ties_by_id priority (priority_order st) /\
  served (calculateMetrics (priority_order st) (job_count st))
    = priority_order st.
Proof.
  intros Hr. split_and!.
  - by apply priority_order_ascending.
  - by apply priority_order_keeps_ties.
  - by apply priority_order_ties_by_id.
  - apply served_priority.
Qed.

Lemma priority_order_stable_witness :
  let Q := libc_reversing_ties in
  ascending_by priority (priority_order scenario_repo) /\
  keeps_ties priority (pending scenario_repo) (priority_order scenario_repo) /\
  ties_by_id priority (priority_order scenario_repo) /\
  served (calculateMetrics (priority_order scenario_repo)
                           (job_count scenario_repo))
    = priority_order scenario_repo.
Proof.
  intros Q. exact (priority_order_stable scenario_repo scenario_reachable).
Defined.

(** C4.  In any run of submissions starting from the empty repository the
    accepted jobs receive the ids 1, 2, 3, ... without gaps, and a
    submission that is rejected, for a non-positive size or priority or
    because the repository is full, leaves [next_job_id] as it was. *)
Theorem ids_sequential subs :
  let rs := (submit_all subs initial_repo).1 in
  let st := (submit_all subs initial_repo).2 in
  accepted_ids rs = seqZ 1 (Z.of_nat (length (accepted_ids rs))) /\
  next_job_id st = Z.of_nat (length (accepted_ids rs)) + 1 /\
  forall p pr,
    match (addJob p pr st).1 with
    | Added j =>
        0 < p /\ 0 < pr /\ job_count st < MAX_JOBS /\
        job_id j = next_job_id st /\
        next_job_id (addJob p pr st).2 = next_job_id st + 1
    | NotPositive =>
        (p <= 0 \/ pr <= 0) /\
        next_job_id (addJob p pr st).2 = next_job_id st
    | QueueFull =>
        MAX_JOBS <= job_count st /\
        next_job_id (addJob p pr st).2 = next_job_id st
    end.
Proof.
  intros rs st. subst rs st.
  destruct (submit_all_ids subs initial_repo initial_inv) as (Hids & Hinv & Hcnt).
  simpl in Hids, Hcnt.
  destruct Hinv as (Hc & Hn & Hl & Hid).
  split_and!; [done | lia |].
  intros p pr.
  destruct (addJob_cases p pr (submit_all subs initial_repo).2) as
    [[Hfull ->] | [(Hlt & Hp & ->) | (Hlt & Hp & Hpr & ->)]]; simpl.
  - done.
  - split; [done |]. apply incr_decr.
    unfold Int.in_range, Int.INT_MIN, Int.INT_MAX, MAX_JOBS in *; lia.
  - split_and!; try done. apply add_exact.
    unfold Int.in_range, Int.INT_MIN, Int.INT_MAX, MAX_JOBS in *; lia.
Qed.

(** C5.  With no job in the repository each of the three simulations
    prints the empty-queue message and returns; no table is produced. *)
Theorem empty_queue_no_report `{Q : Qsort} st :
  job_count st = 0 ->
  (runFCFS st).1 = EmptyQueue /\
  (runSJF st).1 = EmptyQueue /\
  (runPriority st).1 = EmptyQueue.
Proof.
  intros H. unfold runFCFS, runSJF, runPriority. by rewrite H.
Qed.

Lemma empty_queue_no_report_witness :
  let Q := libc_keeping_ties in
  (runFCFS initial_repo).1 = EmptyQueue /\
  (runSJF initial_repo).1 = EmptyQueue /\
  (runPriority initial_repo).1 = EmptyQueue.
Proof.
  intros Q. apply (empty_queue_no_report initial_repo). reflexivity.
Defined.

(** C6.  For each policy the jobs of the printed table are a permutation of
    the pending jobs, so the ids are the same multiset: FCFS serves the
    pending jobs as they are, SJF and Priority serve a rearrangement, and
    with no pending job nothing is served. *)
Theorem orders_permute `{Q : Qsort} st :
  match (runFCFS st).1 with
  | Simulated r => served r = pending st
  | EmptyQueue => pending st = []
  end /\
  match (runSJF st).1 with
  | Simulated r =>
      served r ≡ₚ pending st /\ job_id <$> served r ≡ₚ job_id <$> pending st
  | EmptyQueue => pending st = []
  end /\
  match (runPriority st).1 with
  | Simulated r =>
      served r ≡ₚ pending st /\ job_id <$> served r ≡ₚ job_id <$> pending st
  | EmptyQueue => pending st = []
  end.
Proof.
  split_and!.
  - destruct (runFCFS_cases st) as [[H ->] | [_ ->]]; simpl.
    + by apply pending_empty.
    + apply served_fcfs.
  - destruct (runSJF_cases st) as [[H ->] | [_ ->]]; simpl.
    + by apply pending_empty.
    + rewrite served_sjf. by rewrite sjf_order_permutes.
  - destruct (runPriority_cases st) as [[H ->] | [_ ->]]; simpl.
    + by apply pending_empty.
    + rewrite served_priority. by rewrite priority_order_permutes.
Qed.

(** C7.  Each of the three simulations returns the repository it received:
    [job_queue], [job_count] and [next_job_id] are unchanged. *)
Theorem simulations_leave_repo `{Q : Qsort} st :
  (runFCFS st).2 = st /\ (runSJF st).2 = st /\ (runPriority st).2 = st.
Proof.
  split_and!; [apply runFCFS_state | apply runSJF_state | apply runPriority_state].
Qed.

(** C8.  The capacity is [MAX_JOBS] = 100; a submission made when
    [job_count] has reached it is refused and leaves [job_queue],
    [job_count] and [next_job_id] unchanged. *)
Theorem full_queue_rejects p pr st :
  MAX_JOBS <= job_count st ->
  MAX_JOBS = 100 /\ addJob p pr st = (QueueFull, st).
Proof. intros H. split; [done | by apply addJob_full]. Qed.

Lemma full_queue_rejects_witness :
  job_count full_repo = 100 /\
  MAX_JOBS = 100 /\ addJob 7 7 full_repo = (QueueFull, full_repo).
Proof.
  split; [reflexivity |].
  apply (full_queue_rejects 7 7 full_repo). vm_compute. discriminate.
Defined.

(** C9.  For up to [MAX_JOBS] jobs the table has one line per job, the
    accumulated totals are the sums of the printed wait and turnaround
    times, and each reported average is that sum divided by the number of
    jobs in [double] arithmetic. *)
Theorem averages_are_means queue count :
  0 < count <= MAX_JOBS -> (Z.to_nat count <= length queue)%nat ->
  let r := calculateMetrics queue count in
  Z.of_nat (length (rows r)) = count /\
  avg_wait_time r
    = Double.div (Double.of_int (sum_Z (wait_time <$> rows r)))
                 (Double.of_int count) /\
  avg_turnaround_time r
    = Double.div (Double.of_int (sum_Z (turnaround_time <$> rows r)))
                 (Double.of_int count).
Proof.
  intros Hc Hlen r. subst r.
  destruct (calculateMetrics_totals queue count) as [Hw Ht]; [lia |].
  split_and!.
  - rewrite calculateMetrics_rows, lines_from_length, length_take. lia.
  - unfold calculateMetrics; simpl. by rewrite Hw.
  - unfold calculateMetrics; simpl. by rewrite Ht.
Qed.

Lemma averages_are_means_witness :
  let r := calculateMetrics (job_queue scenario_repo) 3 in
  Z.of_nat (length (rows r)) = 3 /\
  avg_wait_time r
    = Double.div (Double.of_int (sum_Z (wait_time <$> rows r)))
                 (Double.of_int 3) /\
  avg_turnaround_time r
    = Double.div (Double.of_int (sum_Z (turnaround_time <$> rows r)))
                 (Double.of_int 3).
Proof.
  apply (averages_are_means (job_queue scenario_repo) 3).
  - unfold MAX_JOBS. lia.
  - vm_compute. lia.
Defined.

(** C10.  The repository invariant: [job_count] lies between 0 and
    [MAX_JOBS], [next_job_id] is [job_count + 1], and the job at index [i]
    below [job_count] has id [i + 1], so that the stored ids are
    1, ..., [job_count] in submission order.  It holds initially and
    [addJob] keeps it, whether it accepts or rejects; when [addJob] writes
    [job_queue[job_count]] the index is below [MAX_JOBS] and inside the
    array. *)
Theorem repo_invariant p pr st :
  repo_inv st ->
  repo_inv initial_repo /\
  repo_inv (addJob p pr st).2 /\
  job_id <$> pending st = seqZ 1 (job_count st) /\
  match (addJob p pr st).1 with
  | Added j =>
      0 <= job_count st < MAX_JOBS /\
      (Z.to_nat (job_count st) < length (job_queue st))%nat /\
      job_queue (addJob p pr st).2 !! Z.to_nat (job_count st) = Some j /\
      pending (addJob p pr st).2 = pending st ++ [j]
  | _ => (addJob p pr st).2 = st
  end.
Proof.
  intros Hinv. split_and!.
  - apply initial_inv.
  - by apply addJob_inv.
  - by apply pending_ids.
  - pose proof Hinv as (Hc & Hn & Hl & Hid).
    destruct (addJob_cases p pr st) as
      [[Hfull ->] | [(Hlt & Hp & ->) | (Hlt & Hp & Hpr & ->)]]; simpl.
    + done.
    + rewrite incr_decr
        by (unfold Int.in_range, Int.INT_MIN, Int.INT_MAX, MAX_JOBS in *; lia).
      by destruct st.
    + assert (Z.to_nat (job_count st) < length (job_queue st))%nat
        by (rewrite Hl; unfold MAX_JOBS in *; lia).
      split_and!; [lia | lia | done | by apply list_lookup_insert_eq |].
      by apply pending_snoc.
Qed.

Lemma repo_invariant_witness :
  repo_inv initial_repo /\
  repo_inv (addJob 10 2 initial_repo).2 /\
  job_id <$> pending initial_repo = seqZ 1 (job_count initial_repo) /\
  match (addJob 10 2 initial_repo).1 with
  | Added j =>
      0 <= job_count initial_repo < MAX_JOBS /\
      (Z.to_nat (job_count initial_repo) < length (job_queue initial_repo))%nat /\
      job_queue (addJob 10 2 initial_repo).2 !! Z.to_nat (job_count initial_repo)
        = Some j /\
      pending (addJob 10 2 initial_repo).2 = pending initial_repo ++ [j]
  | _ => (addJob 10 2 initial_repo).2 = initial_repo
  end.
Proof.
  apply (repo_invariant 10 2 initial_repo).
  unfold repo_inv, initial_repo, MAX_JOBS; simpl.
  split_and!; [lia | lia | reflexivity | reflexivity |].
  intros i j Hi. lia.
Defined.

(** * Further properties *)

(** ** What the repository holds after a run of submissions *)

Lemma not_positive_restores st :
  repo_inv st ->
  mkRepo (job_queue st) (job_count st) (Int.sub (Int.add (next_job_id st) 1) 1)
  = st.
Proof.
  intros (Hc & Hn & _ & _).
  rewrite incr_decr
    by (unfold Int.in_range, Int.INT_MIN, Int.INT_MAX, MAX_JOBS in *; lia).
  by destruct st.
Qed.

Lemma pending_count st :
  repo_inv st -> Z.of_nat (length (pending st)) = job_count st.
Proof.
  intros (Hc & _ & Hl & _). unfold pending.
  rewrite length_take, Hl. unfold MAX_JOBS in *. lia.
Qed.

Lemma submit_all_cons p pr subs st :
  submit_all ((p, pr) :: subs) st =
    ((addJob p pr st).1 :: (submit_all subs (addJob p pr st).2).1,
     (submit_all subs (addJob p pr st).2).2).
Proof.
  simpl. destruct (addJob p pr st) as [r st']; simpl.
  by destruct (submit_all subs st').
Qed.

Lemma submit_all_content subs : forall st,
  repo_inv st ->
  let kept := numbered (next_job_id st)
                (take (Z.to_nat (MAX_JOBS - job_count st)) (positive_pairs subs)) in
  pending (submit_all subs st).2 = pending st ++ kept /\
  accepted_jobs (submit_all subs st).1 = kept.
Proof.
  induction subs as [| [p pr] subs IH]; intros st Hinv.
  { unfold positive_pairs. rewrite filter_nil, take_nil; simpl.
    by rewrite app_nil_r. }
  rewrite submit_all_cons. cbn [fst snd].
  destruct (IH _ (addJob_inv p pr st Hinv)) as [IHp IHa].
  rewrite IHp. clear IHp.
  pose proof Hinv as (Hc & Hn & Hl & Hid).
  unfold positive_pairs in *.
  destruct (addJob_cases p pr st) as
    [[Hfull E] | [(Hlt & Hp & E) | (Hlt & Hp & Hpr & E)]];
    rewrite E in *; cbn [fst snd accepted_jobs job_count next_job_id] in *.
  - rewrite IHa.
    replace (Z.to_nat (MAX_JOBS - job_count st)) with 0%nat by lia.
    by rewrite !take_0.
  - rewrite IHa. rewrite not_positive_restores by done.
    rewrite incr_decr
      by (unfold Int.in_range, Int.INT_MIN, Int.INT_MAX, MAX_JOBS in *; lia).
    rewrite filter_cons_False by (simpl; lia). done.
  - rewrite IHa. rewrite pending_snoc by done.
    rewrite !add_exact
      by (unfold Int.in_range, Int.INT_MIN, Int.INT_MAX, MAX_JOBS in *; lia).
    rewrite filter_cons_True by (simpl; lia).
    replace (Z.to_nat (MAX_JOBS - job_count st))
      with (S (Z.to_nat (MAX_JOBS - (job_count st + 1)))) by lia.
    simpl. by rewrite <- app_assoc.
Qed.

(** X1.  After any run of submissions to the empty repository, the pending
    jobs are the first [MAX_JOBS] pairs with positive size and priority, in
    the order typed and numbered from 1; these are the jobs reported as
    added, [job_count] is their number, and [displayQueue] lists exactly
    them (or prints the empty-queue message when there is none). *)
Theorem repository_holds_accepted subs :
  let rs := (submit_all subs initial_repo).1 in
  let st := (submit_all subs initial_repo).2 in
  let kept := numbered 1 (take (Z.to_nat MAX_JOBS) (positive_pairs subs)) in
  pending st = kept /\
  accepted_jobs rs = kept /\
  job_count st = Z.of_nat (length kept) /\
  displayQueue st =
    (match kept with [] => NothingQueued | _ => Listing kept end, st).
Proof.
  intros rs st kept. subst rs st kept.
  destruct (submit_all_content subs initial_repo initial_inv) as [Hp Ha].
  destruct (submit_all_ids subs initial_repo initial_inv) as (_ & Hinv & _).
  change (pending initial_repo) with (@nil PrintJob) in Hp.
  change (next_job_id initial_repo) with 1 in Hp, Ha.
  change (MAX_JOBS - job_count initial_repo) with MAX_JOBS in Hp, Ha.
  simpl in Hp.
  pose proof (pending_count _ Hinv) as Hlen.
  split_and!; [done | done | by rewrite <- Hp, Hlen |].
  rewrite <- Hp. unfold displayQueue.
  destruct (Z.eqb_spec (job_count (submit_all subs initial_repo).2) 0)
    as [E | E].
  - by rewrite (pending_empty _ E).
  - fold (pending (submit_all subs initial_repo).2).
    destruct (pending _) eqn:Ep; [simpl in Hlen; lia | done].
Qed.

(** ** The menu loop *)

Lemma shown_state s run : (shown s run).1.2 = run.1.2.
Proof. by destruct run as [[out st] e]. Qed.

Lemma shown_screens s run : (shown s run).1.1 = s :: run.1.1.
Proof. by destruct run as [[out st] e]. Qed.

Lemma shown_ending s run : (shown s run).2 = run.2.
Proof. by destruct run as [[out st] e]. Qed.

Lemma displayQueue_state st : (displayQueue st).2 = st.
Proof. unfold displayQueue. by destruct (job_count st =? 0). Qed.

Section MainLoopFacts.
Context `{Q : Qsort}.

(** A property of the repository that [addJob] keeps, for the numbers that
    can be typed, holds of the repository however far the loop gets. *)
Lemma main_loop_keeps (P : repo -> Prop) (I : Z -> Prop) :
  I 0 ->
  (forall p pr st, I p -> I pr -> P st -> P (addJob p pr st).2) ->
  forall n input st,
    (length input <= n)%nat -> Forall I input -> P st ->
    P (main_loop input st).1.2.
Proof.
  intros H0 Hadd. induction n as [| n IH]; intros input st Hlen HI HP.
  { destruct input; [done | simpl in Hlen; lia]. }
  destruct input as [| choice rest]; [done |].
  apply Forall_cons in HI as [_ HI]. simpl in Hlen.
  cbn [main_loop].
  destruct (choice =? 1).
  { destruct (job_count st >=? MAX_JOBS).
    - pose proof (Hadd 0 0 st H0 H0 HP) as HP'.
      destruct (addJob 0 0 st) as [r st']. rewrite shown_state.
      apply IH; [lia | done | done].
    - destruct rest as [| p [| pr rest']]; [done | done |].
      apply Forall_cons in HI as [Hp HI]. apply Forall_cons in HI as [Hpr HI].
      pose proof (Hadd p pr st Hp Hpr HP) as HP'.
      destruct (addJob p pr st) as [r st']. rewrite shown_state.
      simpl in Hlen. apply IH; [lia | done | done]. }
  destruct (choice =? 2).
  { pose proof (displayQueue_state st) as E.
    destruct (displayQueue st) as [d st']; simpl in E; subst st'.
    rewrite shown_state. apply IH; [lia | done | done]. }
  destruct (choice =? 3).
  { pose proof (runFCFS_state st) as E.
    destruct (runFCFS st) as [r st']; simpl in E; subst st'.
    rewrite shown_state. apply IH; [lia | done | done]. }
  destruct (choice =? 4).
  { pose proof (runSJF_state st) as E.
    destruct (runSJF st) as [r st']; simpl in E; subst st'.
    rewrite shown_state. apply IH; [lia | done | done]. }
  destruct (choice =? 5).
  { pose proof (runPriority_state st) as E.
    destruct (runPriority st) as [r st']; simpl in E; subst st'.
    rewrite shown_state. apply IH; [lia | done | done]. }
  destruct (choice =? 6); [done |].
  rewrite shown_state. apply IH; [lia | done | done].
Qed.

Lemma addJob_reachable p pr st :
  Int.in_range p -> Int.in_range pr -> reachable st ->
  reachable (addJob p pr st).2.
Proof.
  intros Hp Hpr Hr.
  pose proof (reach_dispatch (CmdAdd p pr) st Hr (conj Hp Hpr)) as H.
  by rewrite dispatch_state in H.
Qed.

Lemma addJob_extends p pr st :
  repo_inv st -> pending st `prefix_of` pending (addJob p pr st).2.
Proof.
  intros Hinv.
  destruct (addJob_cases p pr st) as
    [[_ ->] | [(Hlt & _ & ->) | (Hlt & Hp' & Hpr' & ->)]]; simpl.
  - done.
  - by rewrite not_positive_restores.
  - rewrite pending_snoc by done. by apply prefix_app_r.
Qed.

End MainLoopFacts.

(** X2.  Whatever numbers are typed, the repository that the menu loop
    reaches can also be reached by a session of commands with [int]
    arguments: it satisfies the repository invariant and every pending job
    has positive [int] size and priority. *)
Theorem main_loop_reachable `{Q : Qsort} input st :
  Forall Int.in_range input -> reachable st ->
  reachable (main_loop input st).1.2 /\
  repo_inv (main_loop input st).1.2 /\
  Forall accepted_job (pending (main_loop input st).1.2).
Proof.
  intros HI Hr.
  assert (reachable (main_loop input st).1.2) as H.
  { apply (main_loop_keeps reachable Int.in_range) with (n := length input);
      [| | done | done | done].
    - unfold Int.in_range, Int.INT_MIN, Int.INT_MAX; lia.
    - intros p pr st0. apply addJob_reachable. }
  split; [done | by apply reachable_inv].
Qed.

Lemma main_loop_reachable_witness :
  let Q := libc_keeping_ties in
  let input := [1; 10; 2; 9; 1; 0; 5; 4; 6] in
  reachable (main_loop input initial_repo).1.2 /\
  repo_inv (main_loop input initial_repo).1.2 /\
  Forall accepted_job (pending (main_loop input initial_repo).1.2).
Proof.
  intros Q input.
  apply (main_loop_reachable input initial_repo).
  - repeat constructor; vm_compute; discriminate.
  - constructor.
Defined.

(** X3.  No command of the menu removes or changes a job that was
    accepted: the pending jobs at any point of a run are a prefix of the
    pending jobs at any later point. *)
Theorem main_loop_append_only `{Q : Qsort} input st :
  repo_inv st ->
  pending st `prefix_of` pending (main_loop input st).1.2.
Proof.
  intros Hinv.
  apply (main_loop_keeps
           (fun st' => repo_inv st' /\ pending st `prefix_of` pending st')
           (fun _ => True)) with (n := length input); try done.
  - intros p pr st' _ _ [Hinv' Hpre]. split; [by apply addJob_inv |].
    etrans; [exact Hpre | by apply addJob_extends].
  - by apply Forall_true.
Qed.

Lemma main_loop_append_only_witness :
  let Q := libc_keeping_ties in
  pending scenario_repo
    `prefix_of` pending (main_loop [3; 1; 7; 1; 2; 6] scenario_repo).1.2.
Proof.
  intros Q. apply (main_loop_append_only [3; 1; 7; 1; 2; 6] scenario_repo).
  exact (proj1 (reachable_inv scenario_repo scenario_reachable)).
Defined.

Lemma addJob_count p pr st :
  repo_inv st -> job_count (addJob p pr st).2 <= job_count st + 1.
Proof.
  intros (Hc & _).
  destruct (addJob_cases p pr st) as
    [[_ ->] | [(Hlt & _ & ->) | (Hlt & Hp' & Hpr' & ->)]]; simpl; try lia.
  rewrite add_exact
    by (unfold Int.in_range, Int.INT_MIN, Int.INT_MAX, MAX_JOBS in *; lia).
  lia.
Qed.

Lemma session_cons `{Q : Qsort} c cs st :
  session (c :: cs) st =
    ((dispatch c st).1 :: (session cs (dispatch c st).2).1,
     (session cs (dispatch c st).2).2).
Proof.
  simpl. destruct (dispatch c st) as [o st']; simpl.
  by destruct (session cs st').
Qed.

Lemma shown_eq s run out st e :
  run = (out, st, e) -> shown s run = (s :: out, st, e).
Proof. by intros ->. Qed.

(** X4.  Typing the menu numbers of a session of commands, then 6, makes
    [main]'s loop print what the commands print, one after the other, then
    the goodbye line, and return with the repository the session leaves;
    numbers typed after the 6 are not read.  This holds as long as the
    session has no more add-job commands than free places, so that no
    [addJob] finds the repository full. *)
Theorem main_loop_runs_session `{Q : Qsort} cs : forall st tail,
  repo_inv st ->
  job_count st + Z.of_nat (count_adds cs) <= MAX_JOBS ->
  main_loop (typed cs ++ 6 :: tail) st =
    ((screen_of <$> (session cs st).1) ++ [ScreenGoodbye],
     (session cs st).2, Returned).
Proof.
  induction cs as [| c cs IH]; intros st tail Hinv Hroom; [done |].
  rewrite session_cons. cbn [fst snd fmap list_fmap app].
  destruct c as [p pr | | |]; cbn [typed keystrokes app count_adds] in *.
  - assert (job_count st < MAX_JOBS) as Hlt by lia.
    cbn [main_loop Z.eqb Pos.eqb].
    destruct (job_count st >=? MAX_JOBS) eqn:E; [lia |].
    cbn [dispatch].
    pose proof (addJob_inv p pr st Hinv) as Hinv'.
    pose proof (addJob_count p pr st Hinv) as Hcnt.
    destruct (addJob p pr st) as [r st']; cbn [fst snd] in *.
    apply shown_eq. apply IH; [done | lia].
  - cbn [main_loop Z.eqb Pos.eqb dispatch].
    pose proof (runFCFS_state st) as E.
    destruct (runFCFS st) as [r st']; cbn [fst snd] in *; subst st'.
    apply shown_eq. by apply IH.
  - cbn [main_loop Z.eqb Pos.eqb dispatch].
    pose proof (runSJF_state st) as E.
    destruct (runSJF st) as [r st']; cbn [fst snd] in *; subst st'.
    apply shown_eq. by apply IH.
  - cbn [main_loop Z.eqb Pos.eqb dispatch].
    pose proof (runPriority_state st) as E.
    destruct (runPriority st) as [r st']; cbn [fst snd] in *; subst st'.
    apply shown_eq. by apply IH.
Qed.

Lemma main_loop_runs_session_witness :
  let Q := libc_keeping_ties in
  let cs := [CmdAdd 10 2; CmdFCFS; CmdAdd 0 1; CmdAdd 5 1; CmdSJF] in
  main_loop (typed cs ++ 6 :: [1; 1; 1]) initial_repo =
    ((screen_of <$> (session cs initial_repo).1) ++ [ScreenGoodbye],
     (session cs initial_repo).2, Returned).
Proof.
  intros Q cs.
  apply (main_loop_runs_session cs initial_repo [1; 1; 1]).
  - exact initial_inv.
  - vm_compute. discriminate.
Defined.

(** ** The comparators *)

(** X5.  On jobs that [addJob] accepted the subtractions of the
    comparators do not wrap: [compareSJF] is negative, zero or positive as
    the first size is below, equal to or above the second, and
    [comparePriority] is negative exactly when the first job comes first in
    the order by priority and then by job_id, and zero only for equal
    priority and equal job_id. *)
Theorem comparators_faithful a b :
  accepted_job a -> accepted_job b ->
  0 < job_id a <= MAX_JOBS -> 0 < job_id b <= MAX_JOBS ->
  (compareSJF a b < 0 <-> page_count a < page_count b) /\
  (compareSJF a b = 0 <-> page_count a = page_count b) /\
  (comparePriority a b < 0 <->
     priority a < priority b \/
     (priority a = priority b /\ job_id a < job_id b)) /\
  (comparePriority a b = 0 <->
     priority a = priority b /\ job_id a = job_id b).
Proof.
  intros Ha Hb Hia Hib.
  rewrite compareSJF_exact, comparePriority_exact by done.
  destruct (Z.eqb_spec (priority a) (priority b)); lia.
Qed.

Lemma comparators_faithful_witness :
  let a := mkJob 1 10 2 in
  let b := mkJob 2 5 2 in
  (compareSJF a b < 0 <-> page_count a < page_count b) /\
  (compareSJF a b = 0 <-> page_count a = page_count b) /\
  (comparePriority a b < 0 <->
     priority a < priority b \/
     (priority a = priority b /\ job_id a < job_id b)) /\
  (comparePriority a b = 0 <->
     priority a = priority b /\ job_id a = job_id b).
Proof.
  intros a b. apply (comparators_faithful a b);
    unfold accepted_job, Int.INT_MAX, MAX_JOBS; simpl; lia.
Defined.

(** ** The orders, whatever the C library *)

Lemma reachable_any_libc (Q1 Q2 : Qsort) st :
  reachable (Q := Q1) st -> reachable (Q := Q2) st.
Proof.
  induction 1 as [| c st Hr IH Hc]; [constructor |].
  rewrite (dispatch_state (Q := Q1)), <- (dispatch_state (Q := Q2)).
  by constructor.
Qed.

Lemma calculateMetrics_take queue count :
  calculateMetrics (take (Z.to_nat count) queue) count
  = calculateMetrics queue count.
Proof.
  unfold calculateMetrics, metrics_loop.
  by rewrite take_take, Nat.min_id.
Qed.

Lemma calculateMetrics_whole queue count :
  (length queue <= Z.to_nat count)%nat ->
  metrics_loop queue count = fold_left metrics_step queue metrics_start.
Proof. intros H. unfold metrics_loop. by rewrite take_ge. Qed.

Section LibraryIndependence.
Context (Q1 Q2 : Qsort).

(** X6.  [comparePriority] never reports two different pending jobs as
    equal, so the order served by [runPriority], and with it the whole
    printed table, is the same with every [qsort] that meets the C
    standard. *)
Theorem priority_table_any_libc st :
  reachable (Q := Q1) st ->
  priority_order (Q := Q1) st = priority_order (Q := Q2) st /\
  runPriority (Q := Q1) st = runPriority (Q := Q2) st.
Proof.
  intros Hr1.
  pose proof (reachable_any_libc Q1 Q2 st Hr1) as Hr2.
  pose proof (priority_order_sorted (Q := Q1) st Hr1) as Hs1.
  pose proof (priority_order_sorted (Q := Q2) st Hr2) as Hs2.
  apply (reachable_inv (Q := Q1)) in Hr1 as [Hinv _].
  assert (priority_order (Q := Q1) st = priority_order (Q := Q2) st) as E.
  { eapply StronglySorted_unique_strong; [| exact Hs1 | exact Hs2 |].
    - intros a b Ha Hb Hab Hba.
      rewrite (priority_order_permutes (Q := Q1)) in Ha.
      rewrite (priority_order_permutes (Q := Q2)) in Hb.
      simpl in Hab, Hba.
      apply (NoDup_fmap_members job_id (pending st));
        [by apply pending_ids_NoDup | done | done | lia].
    - by rewrite (priority_order_permutes (Q := Q1)),
                 (priority_order_permutes (Q := Q2)). }
  split; [done |]. unfold runPriority. by rewrite E.
Qed.

End LibraryIndependence.

Lemma priority_table_any_libc_witness :
  priority_order (Q := libc_keeping_ties) scenario_repo
    = priority_order (Q := libc_reversing_ties) scenario_repo /\
  runPriority (Q := libc_keeping_ties) scenario_repo
    = runPriority (Q := libc_reversing_ties) scenario_repo.
Proof.
  apply (priority_table_any_libc libc_keeping_ties libc_reversing_ties).
  exact (scenario_reachable (Q := libc_keeping_ties)).
Defined.

Lemma sorted_sizes_unique (s1 s2 : list Z) :
  StronglySorted Z.le s1 -> StronglySorted Z.le s2 -> s1 ≡ₚ s2 -> s1 = s2.
Proof.
  apply StronglySorted_unique_strong. intros x y _ _ Hxy Hyx. lia.
Qed.

Lemma sjf_sizes_sorted `{Q : Qsort} st :
  reachable st -> StronglySorted Z.le (page_count <$> sjf_order st).
Proof.
  intros Hr. apply sjf_order_ascending in Hr.
  by apply (StronglySorted_fmap page_count
              (fun a b => page_count a <= page_count b) Z.le).
Qed.

Lemma sjf_order_length `{Q : Qsort} st :
  (length (sjf_order st) <= Z.to_nat (job_count st))%nat.
Proof. rewrite sjf_order_permutes. apply pending_length. Qed.

(** The clock, the totals and the two time columns depend on the sizes
    only. *)
Lemma loop_by_sizes l1 : forall l2 m1 m2,
  page_count <$> l1 = page_count <$> l2 ->
  total_wait_time m1 = total_wait_time m2 ->
  total_turnaround_time m1 = total_turnaround_time m2 ->
  current_time m1 = current_time m2 ->
  times (printed m1) = times (printed m2) ->
  total_wait_time (fold_left metrics_step l1 m1)
    = total_wait_time (fold_left metrics_step l2 m2) /\
  total_turnaround_time (fold_left metrics_step l1 m1)
    = total_turnaround_time (fold_left metrics_step l2 m2) /\
  times (printed (fold_left metrics_step l1 m1))
    = times (printed (fold_left metrics_step l2 m2)).
Proof.
  induction l1 as [| j1 l1 IH]; intros [| j2 l2] m1 m2 Hs Hw Ht Hc Hp;
    try done.
  simpl in Hs. injection Hs as Hj Hs.
  cbn [fold_left]. apply IH; [done | ..]; unfold metrics_step; simpl.
  - by rewrite Hw, Hc.
  - by rewrite Ht, Hc, Hj.
  - by rewrite Hc, Hj.
  - unfold times in *. rewrite !fmap_app, Hp; simpl. by rewrite Hc, Hj.
Qed.

Section TieIndependence.
Context (Q1 Q2 : Qsort).

(** X7.  [compareSJF] leaves the order of equal-sized jobs to [qsort], but
    the sizes in serving order, the wait and turnaround columns and the
    two averages of the SJF table are the same with every [qsort] that
    meets the C standard; only the ids and priorities shown beside equal
    sizes can differ. *)
Theorem sjf_times_any_libc st :
  reachable (Q := Q1) st ->
  let r1 := calculateMetrics (sjf_order (Q := Q1) st) (job_count st) in
  let r2 := calculateMetrics (sjf_order (Q := Q2) st) (job_count st) in
  page_count <$> served r1 = page_count <$> served r2 /\
  times (rows r1) = times (rows r2) /\
  avg_wait_time r1 = avg_wait_time r2 /\
  avg_turnaround_time r1 = avg_turnaround_time r2.
Proof.
  intros Hr1 r1 r2. subst r1 r2.
  pose proof (reachable_any_libc Q1 Q2 st Hr1) as Hr2.
  assert (page_count <$> sjf_order (Q := Q1) st
          = page_count <$> sjf_order (Q := Q2) st) as E.
  { apply sorted_sizes_unique; [by apply sjf_sizes_sorted.. |].
    by rewrite (sjf_order_permutes (Q := Q1)), (sjf_order_permutes (Q := Q2)). }
  rewrite !served_sjf.
  unfold calculateMetrics; cbn [rows avg_wait_time avg_turnaround_time].
  rewrite !calculateMetrics_whole by apply sjf_order_length.
  destruct (loop_by_sizes _ _ metrics_start metrics_start E)
    as (Hw & Ht & Hp); try done.
  split_and!; [done | done | by rewrite Hw | by rewrite Ht].
Qed.

End TieIndependence.

Lemma sjf_times_any_libc_witness :
  let r1 := calculateMetrics (sjf_order (Q := libc_keeping_ties) tied_repo)
                             (job_count tied_repo) in
  let r2 := calculateMetrics (sjf_order (Q := libc_reversing_ties) tied_repo)
                             (job_count tied_repo) in
  page_count <$> served r1 = page_count <$> served r2 /\
  times (rows r1) = times (rows r2) /\
  avg_wait_time r1 = avg_wait_time r2 /\
  avg_turnaround_time r1 = avg_turnaround_time r2.
Proof.
  apply (sjf_times_any_libc libc_keeping_ties libc_reversing_ties).
  exact (tied_reachable (Q := libc_keeping_ties)).
Defined.

(** ** Closed forms of the timeline *)

Lemma total_pages_permutation l l' :
  l ≡ₚ l' -> total_pages l = total_pages l'.
Proof. induction 1; simpl; lia. Qed.

Lemma total_pages_sizes l : total_pages l = sum_Z (page_count <$> l).
Proof. induction l as [| j l IH]; simpl; [done | by rewrite IH]. Qed.

(** Below [INT_MAX] a job waits for the sizes of the jobs served before
    it, from the clock value [t] on. *)
Lemma lines_from_closed l : forall t k r,
  Forall (fun j => 0 < page_count j) l ->
  0 <= t -> t + total_pages l <= Int.INT_MAX ->
  lines_from t l !! k = Some r ->
  wait_time r = t + total_pages (take k l) /\
  turnaround_time r = t + total_pages (take (S k) l).
Proof.
  induction l as [| job l IH]; intros t k r Hpos Ht Hsum Hr; [done |].
  apply Forall_cons in Hpos as [Hj Hl].
  pose proof (total_pages_nonneg l Hl).
  simpl in Hsum.
  assert (Int.add t (page_count job) = t + page_count job) as Eadd
    by (apply add_exact;
        unfold Int.in_range, Int.INT_MIN, Int.INT_MAX in *; lia).
  destruct k as [| k]; simpl in Hr.
  - injection Hr as <-; simpl. rewrite ?take_0; simpl. lia.
  - rewrite Eadd in Hr.
    destruct (IH (t + page_count job) k r) as [Hw Hta]; [done | lia | lia | done |].
    rewrite Hw, Hta. simpl. lia.
Qed.

(** X8.  For a job sequence with positive sizes whose sum does not exceed
    [INT_MAX], the line of the job at position [k] shows as wait time the
    sum of the sizes of the jobs before it and as turnaround time the sum
    of the sizes up to and including it. *)
Theorem wait_is_work_ahead queue count k r :
  let jobs := take (Z.to_nat count) queue in
  Forall (fun j => 0 < page_count j) jobs ->
  total_pages jobs <= Int.INT_MAX ->
  rows (calculateMetrics queue count) !! k = Some r ->
  jobs !! k = Some (row_job r) /\
  wait_time r = total_pages (take k jobs) /\
  turnaround_time r = total_pages (take (S k) jobs).
Proof.
  intros jobs Hpos Hsum Hr. subst jobs.
  split.
  - rewrite <- calculateMetrics_served. unfold served.
    by rewrite list_lookup_fmap, Hr.
  - rewrite calculateMetrics_rows in Hr.
    destruct (lines_from_closed _ 0 k r Hpos) as [Hw Ht]; [lia | lia | done |].
    rewrite Hw, Ht. lia.
Qed.

Lemma wait_is_work_ahead_witness :
  let jobs := take 3 (job_queue scenario_repo) in
  let r := mkRow (mkJob 3 20 3) 15 35 in
  jobs !! 2%nat = Some (row_job r) /\
  wait_time r = total_pages (take 2 jobs) /\
  turnaround_time r = total_pages (take 3 jobs).
Proof.
  intros jobs r.
  apply (wait_is_work_ahead (job_queue scenario_repo) 3 2 r).
  - vm_compute. repeat constructor.
  - vm_compute. discriminate.
  - reflexivity.
Defined.

(** The last line of a table shows the sum of all sizes. *)
Lemma last_turnaround l n :
  Forall (fun j => 0 < page_count j) l ->
  total_pages l <= Int.INT_MAX ->
  (length l <= Z.to_nat n)%nat -> l <> [] ->
  turnaround_time <$> last (rows (calculateMetrics l n))
  = Some (total_pages l).
Proof.
  intros Hpos Hsum Hlen Hne.
  rewrite calculateMetrics_rows, take_ge by done.
  rewrite last_lookup, lines_from_length.
  destruct (lines_from 0 l !! pred (length l)) as [r |] eqn:Er.
  - destruct (lines_from_closed l 0 (pred (length l)) r Hpos) as [_ Ht];
      [lia | lia | done |].
    simpl. rewrite Ht. f_equal.
    destruct l; [done |]. simpl pred. rewrite take_ge by (simpl; lia). lia.
  - apply lookup_ge_None in Er. rewrite lines_from_length in Er.
    destruct l; [done | simpl in Er; lia].
Qed.

Lemma accepted_positive l :
  Forall accepted_job l -> Forall (fun j => 0 < page_count j) l.
Proof.
  intros H. eapply Forall_impl; [exact H |]. intros j [Hj _]. simpl. lia.
Qed.

(** X9.  While the sum of the pending sizes does not exceed [INT_MAX], the
    three policies finish at the same time: in each of the three tables the
    turnaround time of the last line is the sum of all pending sizes. *)
Theorem policies_finish_together `{Q : Qsort} st :
  reachable st -> total_pages (pending st) <= Int.INT_MAX ->
  job_count st <> 0 ->
  exists rF rS rP,
    (runFCFS st).1 = Simulated rF /\
    (runSJF st).1 = Simulated rS /\
    (runPriority st).1 = Simulated rP /\
    turnaround_time <$> last (rows rF) = Some (total_pages (pending st)) /\
    turnaround_time <$> last (rows rS) = Some (total_pages (pending st)) /\
    turnaround_time <$> last (rows rP) = Some (total_pages (pending st)).
Proof.
  intros Hr Hsum Hne.
  apply reachable_inv in Hr as [Hinv Hacc].
  apply accepted_positive in Hacc.
  assert (pending st <> []) as Hpne.
  { intros E. pose proof (pending_count st Hinv) as H.
    rewrite E in H. simpl in H. lia. }
  destruct (runFCFS_cases st) as [[H _] | [_ EF]]; [done |].
  destruct (runSJF_cases st) as [[H _] | [_ ES]]; [done |].
  destruct (runPriority_cases st) as [[H _] | [_ EP]]; [done |].
  rewrite EF, ES, EP. do 3 eexists. split_and!; try reflexivity.
  - rewrite <- calculateMetrics_take. fold (pending st).
    apply last_turnaround; [done | done | apply pending_length | done].
  - rewrite <- (total_pages_permutation _ _ (sjf_order_permutes st)).
    apply last_turnaround.
    + by rewrite sjf_order_permutes.
    + by rewrite (total_pages_permutation _ _ (sjf_order_permutes st)).
    + apply sjf_order_length.
    + intros E. pose proof (sjf_order_permutes st) as HP.
      rewrite E in HP. by apply Permutation_nil_l in HP.
  - rewrite <- (total_pages_permutation _ _ (priority_order_permutes st)).
    apply last_turnaround.
    + by rewrite priority_order_permutes.
    + by rewrite (total_pages_permutation _ _ (priority_order_permutes st)).
    + rewrite priority_order_permutes. apply pending_length.
    + intros E. pose proof (priority_order_permutes st) as HP.
      rewrite E in HP. by apply Permutation_nil_l in HP.
Qed.

Lemma policies_finish_together_witness :
  let Q := libc_keeping_ties in
  exists rF rS rP,
    (runFCFS scenario_repo).1 = Simulated rF /\
    (runSJF scenario_repo).1 = Simulated rS /\
    (runPriority scenario_repo).1 = Simulated rP /\
    turnaround_time <$> last (rows rF) = Some (total_pages (pending scenario_repo)) /\
    turnaround_time <$> last (rows rS) = Some (total_pages (pending scenario_repo)) /\
    turnaround_time <$> last (rows rP) = Some (total_pages (pending scenario_repo)).
Proof.
  intros Q. apply (policies_finish_together scenario_repo).
  - exact scenario_reachable.
  - vm_compute. discriminate.
  - vm_compute. discriminate.
Defined.

(** ** Shortest job first waits least *)

Lemma waiting_sum_app a b :
  waiting_sum (a ++ b)
  = waiting_sum a + sum_Z a * Z.of_nat (length b) + waiting_sum b.
Proof.
  induction a as [| x a IH]; simpl; [lia |].
  rewrite IH, length_app, Nat2Z.inj_add. lia.
Qed.

Lemma sum_Z_bounded x (s : list Z) :
  Forall (fun y => y <= x) s -> sum_Z s <= x * Z.of_nat (length s).
Proof.
  induction 1 as [| y s Hy Hs IH]; simpl; [lia |].
  rewrite Nat2Z.inj_succ. lia.
Qed.

(** Among the arrangements of the same sizes the ascending one has the
    least sum of waiting times. *)
Lemma waiting_sum_ascending_least (l : list Z) : forall s,
  StronglySorted Z.le s -> s ≡ₚ l -> waiting_sum s <= waiting_sum l.
Proof.
  induction l as [| x l IH]; intros s Hs Hp.
  { apply Permutation_nil_r in Hp. by subst. }
  assert (x ∈ s) as Hx by (rewrite Hp; by left).
  apply list_elem_of_split in Hx as (s1 & s2 & ->).
  symmetry in Hp. apply Permutation_cons_app_inv in Hp. symmetry in Hp.
  apply StronglySorted_app in Hs as (Hcross & Hs1 & Hs2).
  apply StronglySorted_cons in Hs2 as [_ Hs2].
  assert (StronglySorted Z.le (s1 ++ s2)) as Hs12.
  { apply StronglySorted_app. split_and!; [| done | done].
    intros y z Hy Hz. apply Hcross; [done | by right]. }
  specialize (IH _ Hs12 Hp).
  assert (sum_Z s1 <= x * Z.of_nat (length s1)) as Hb.
  { apply sum_Z_bounded, Forall_forall. intros y Hy.
    apply Hcross; [done | by left]. }
  rewrite waiting_sum_app in IH. rewrite waiting_sum_app. simpl.
  apply Permutation_length in Hp. rewrite length_app in Hp.
  rewrite <- Hp, Nat2Z.inj_add, Nat2Z.inj_succ. lia.
Qed.

(** Below [INT_MAX] the wait column adds up to [waiting_sum] of the
    sizes. *)
Lemma lines_from_waiting_sum l : forall t,
  Forall (fun j => 0 < page_count j) l ->
  0 <= t -> t + total_pages l <= Int.INT_MAX ->
  sum_Z (wait_time <$> lines_from t l)
  = t * Z.of_nat (length l) + waiting_sum (page_count <$> l).
Proof.
  induction l as [| job l IH]; intros t Hpos Ht Hsum; [simpl; lia |].
  apply Forall_cons in Hpos as [Hj Hl].
  pose proof (total_pages_nonneg l Hl).
  simpl in Hsum. cbn [lines_from fmap list_fmap sum_Z foldr wait_time].
  fold (sum_Z (wait_time <$> lines_from (Int.add t (page_count job)) l)).
  rewrite add_exact
    by (unfold Int.in_range, Int.INT_MIN, Int.INT_MAX in *; lia).
  rewrite IH by (done || lia).
  cbn [waiting_sum length]. rewrite length_fmap, Nat2Z.inj_succ. lia.
Qed.

Lemma table_waiting_sum l n :
  Forall (fun j => 0 < page_count j) l ->
  total_pages l <= Int.INT_MAX ->
  (length l <= Z.to_nat n)%nat ->
  sum_Z (wait_time <$> rows (calculateMetrics l n))
  = waiting_sum (page_count <$> l).
Proof.
  intros Hpos Hsum Hlen.
  rewrite calculateMetrics_rows, take_ge by done.
  rewrite lines_from_waiting_sum by (done || lia). lia.
Qed.

(** X10.  While the sum of the pending sizes does not exceed [INT_MAX], no
    order of the pending jobs has a smaller sum of wait times than the
    order served by [runSJF]; in particular the SJF table never has a
    larger total wait than the FCFS table or the Priority table. *)
Theorem sjf_waits_least `{Q : Qsort} st :
  reachable st -> total_pages (pending st) <= Int.INT_MAX ->
  let n := job_count st in
  let waits l := sum_Z (wait_time <$> rows (calculateMetrics l n)) in
  (forall l, l ≡ₚ pending st -> waits (sjf_order st) <= waits l) /\
  waits (sjf_order st) <= waits (job_queue st) /\
  waits (sjf_order st) <= waits (priority_order st).
Proof.
  intros Hr Hsum n waits. subst n waits.
  pose proof (sjf_sizes_sorted st Hr) as Hsorted.
  apply reachable_inv in Hr as [Hinv Hacc].
  apply accepted_positive in Hacc.
  assert (forall l, l ≡ₚ pending st ->
            sum_Z (wait_time <$> rows (calculateMetrics (sjf_order st) (job_count st)))
            <= sum_Z (wait_time <$> rows (calculateMetrics l (job_count st))))
    as Hall.
  { intros l Hl.
    rewrite !table_waiting_sum.
    - apply waiting_sum_ascending_least; [done |].
      by rewrite sjf_order_permutes, Hl.
    - by rewrite Hl.
    - by rewrite (total_pages_permutation _ _ Hl).
    - rewrite Hl. apply pending_length.
    - by rewrite sjf_order_permutes.
    - by rewrite (total_pages_permutation _ _ (sjf_order_permutes st)).
    - apply sjf_order_length. }
  split_and!.
  - exact Hall.
  - rewrite <- (calculateMetrics_take (job_queue st)). by apply Hall.
  - apply Hall, priority_order_permutes.
Qed.

Lemma sjf_waits_least_witness :
  let Q := libc_keeping_ties in
  let n := job_count scenario_repo in
  let waits l := sum_Z (wait_time <$> rows (calculateMetrics l n)) in
  (forall l, l ≡ₚ pending scenario_repo ->
             waits (sjf_order scenario_repo) <= waits l) /\
  waits (sjf_order scenario_repo) <= waits (job_queue scenario_repo) /\
  waits (sjf_order scenario_repo) <= waits (priority_order scenario_repo).
Proof.
  intros Q. apply (sjf_waits_least scenario_repo).
  - exact scenario_reachable.
  - vm_compute. discriminate.
Defined.

(** ** Edge behaviour of the simulator *)

Lemma lines_from_turnaround_range l : forall t k r,
  lines_from t l !! k = Some r -> Int.in_range (turnaround_time r).
Proof.
  intros t k r Hr. rewrite (lines_from_turnaround l t k r Hr).
  apply wrap_range.
Qed.

(** X11.  For every input, also when the clock passes [INT_MAX], the table
    has one line per job in the given order, every printed time is an
    [int], and the timing relations hold with the wrapping addition of the
    machine: the first wait is 0, each later wait is the previous wait
    plus the previous size, and each turnaround is wait plus size, all
    modulo 2^32. *)
Theorem timeline_modulo_wrap queue count :
  served (calculateMetrics queue count) = take (Z.to_nat count) queue /\
  timeline_int (rows (calculateMetrics queue count)) /\
  forall k r, rows (calculateMetrics queue count) !! k = Some r ->
    Int.in_range (wait_time r) /\ Int.in_range (turnaround_time r).
Proof.
  split_and!.
  - apply calculateMetrics_served.
  - apply calculateMetrics_timeline_int.
  - rewrite calculateMetrics_rows. intros k r Hr. split.
    + eapply lines_from_wait_range; [| exact Hr].
      unfold Int.in_range, Int.INT_MIN, Int.INT_MAX; lia.
    + by eapply lines_from_turnaround_range.
Qed.

(** X12.  [calculateMetrics] does not guard its division: called with a
    count of 0 it prints a table without lines and two averages that are
    not numbers (0.0 / 0.0), and with a negative count a table without
    lines and two averages of negative zero. *)
Theorem no_lines_no_average queue count :
  Int.in_range count -> count <= 0 ->
  let r := calculateMetrics queue count in
  rows r = [] /\
  avg_turnaround_time r = avg_wait_time r /\
  (count = 0 -> avg_wait_time r = S754_nan) /\
  (count < 0 -> avg_wait_time r = S754_zero true).
Proof.
  intros Hr Hc r. subst r.
  unfold calculateMetrics, metrics_loop.
  replace (Z.to_nat count) with 0%nat by lia.
  rewrite take_0. cbn [fold_left metrics_start rows avg_wait_time
                       avg_turnaround_time printed total_wait_time
                       total_turnaround_time].
  split_and!; [done | done | by intros -> |].
  intros Hneg. rewrite (of_int_normal count)
    by (unfold Int.in_range, Int.INT_MIN, Int.INT_MAX in *; lia).
  destruct count as [| p | p]; [lia | lia | done].
Qed.

Lemma no_lines_no_average_witness :
  let r := calculateMetrics (job_queue scenario_repo) 0 in
  rows r = [] /\
  avg_turnaround_time r = avg_wait_time r /\
  (0 = 0 -> avg_wait_time r = S754_nan) /\
  (0 < 0 -> avg_wait_time r = S754_zero true).
Proof.
  apply (no_lines_no_average (job_queue scenario_repo) 0).
  - unfold Int.in_range, Int.INT_MIN, Int.INT_MAX. lia.
  - lia.
Defined.

(** ** Equal keys *)

Lemma filter_all_members {A} (P : A -> Prop) `{forall x, Decision (P x)}
    (l : list A) :
  (forall x, x ∈ l -> P x) -> filter P l = l.
Proof.
  induction l as [| x l IH]; intros Hall; [done |].
  rewrite filter_cons_True by (apply Hall; by left).
  f_equal. apply IH. intros y Hy. apply Hall. by right.
Qed.

(** X13.  When all pending jobs have the same priority, [runPriority]
    serves them in submission order and prints the table of [runFCFS],
    with every [qsort] that meets the C standard. *)
Theorem equal_priorities_fcfs `{Q : Qsort} st :
  reachable st ->
  (forall a b, a ∈ pending st -> b ∈ pending st -> priority a = priority b) ->
  priority_order st = pending st /\
  (runPriority st).1 = (runFCFS st).1.
Proof.
  intros Hr Heq.
  assert (priority_order st = pending st) as E.
  { destruct (pending st) as [| h rest] eqn:Ep.
    - pose proof (priority_order_permutes st) as HP. rewrite Ep in HP.
      by apply Permutation_nil_r in HP.
    - pose proof (priority_order_keeps_ties st Hr (priority h)) as Hk.
      rewrite Ep in Hk.
      rewrite !filter_all_members in Hk; [done | |].
      + intros x Hx. apply Heq; [done | by left].
      + intros x Hx. apply Heq; [| by left].
        pose proof (priority_order_permutes st) as HP. rewrite Ep in HP.
        by rewrite <- HP. }
  split; [done |].
  unfold runPriority, runFCFS.
  destruct (job_count st =? 0); [done |]. simpl.
  rewrite E. unfold pending. by rewrite calculateMetrics_take.
Qed.

Lemma equal_priorities_fcfs_witness :
  let Q := libc_reversing_ties in
  let st := (submit_all [(10, 2); (5, 2)] initial_repo).2 in
  priority_order st = pending st /\
  (runPriority st).1 = (runFCFS st).1.
Proof.
  intros Q st. apply (equal_priorities_fcfs st).
  - apply submit_all_reachable; [| constructor].
    repeat constructor; vm_compute; discriminate.
  - intros a b Ha Hb.
    change (pending st) with [mkJob 1 10 2; mkJob 2 5 2] in Ha, Hb.
    apply elem_of_cons in Ha as [-> | Ha], Hb as [-> | Hb];
      try apply list_elem_of_singleton in Ha;
      try apply list_elem_of_singleton in Hb; by subst.
Defined.
